(** * rjson: the JSON value tree, its incremental builder and its walk

    A shallow embedding of [program.cpp].  The program reads a JSON text
    with yajl, whose parser reports structural events to the callbacks of
    [reader_cb]; the callbacks assemble a [json_data] tree through
    [json_data_state::insert]; [generate_json] then walks the tree and
    drives a yajl generator.  The yajl parser and generator are external
    libraries: the parser appears here as the sequence of events it
    delivers, the generator as an abstract machine that answers each call
    with a status. *)

From stdpp Require Import gmap strings list fin_maps.
From Stdlib Require Import PrimFloat.

Local Open Scope Z_scope.

(** ** The value model (lines 42-130) *)

Inductive json_type :=
  | json_type_null
  | json_type_boolean
  | json_type_integer
  | json_type_real
  | json_type_string
  | json_type_map
  | json_type_array.

#[global] Instance json_type_eq_dec : EqDecision json_type.
Proof. solve_decision. Defined.

(** [struct json_data]: the tag and the active member of the union are one
    constructor.  A [double] is a primitive float, an [int64_t] is the
    integer it denotes (the program never computes on either), a
    [std::string] is a string of 8-bit characters.  The members of a map
    and the elements of an array are stored by value inside their
    container, so a value is a finite tree. *)
#[warnings="-register-all"]
Inductive json_data :=
  | data_null
  | data_boolean (boolean : bool)
  | data_integer (integer : Z)
  | data_real (real : float)
  | data_string (str : string)
  | data_map (map : gmap string json_data)
  | data_array (array : list json_data).

(** The field [type]. *)
Definition type (d : json_data) : json_type :=
  match d with
  | data_null => json_type_null
  | data_boolean _ => json_type_boolean
  | data_integer _ => json_type_integer
  | data_real _ => json_type_real
  | data_string _ => json_type_string
  | data_map _ => json_type_map
  | data_array _ => json_type_array
  end.

(** The constructor [json_data(json_type t)] (lines 65-92). *)
Definition json_data_of_type (t : json_type) : json_data :=
  match t with
  | json_type_null => data_null
  | json_type_boolean => data_boolean false
  | json_type_integer => data_integer 0
  | json_type_real => data_real 0%float
  | json_type_string => data_string ""
  | json_type_map => data_map ∅
  | json_type_array => data_array []
  end.

(** ** Pointers into the tree

    Every [json_data *] the program holds points either at the root
    object or at a value stored inside a container of the tree: a member
    of an [unordered_map] or an element of a [list].  Both containers are
    node based and the program never erases from them, so such a pointer
    stays valid and is determined by the way from the root to the value. *)

Inductive member :=
  | in_map (key : string)
  | in_array (index : nat).

#[global] Instance member_eq_dec : EqDecision member.
Proof. solve_decision. Defined.

Abbreviation handle := (list member).

(** [deref d h] reads the value the pointer [h] refers to, in the tree
    [d]; [None] when [h] points at nothing. *)
Fixpoint deref (d : json_data) (h : handle) {struct h} : option json_data :=
  match h with
  | [] => Some d
  | in_map k :: h' =>
      match d with
      | data_map m => m !! k ≫= λ d', deref d' h'
      | _ => None
      end
  | in_array i :: h' =>
      match d with
      | data_array a => a !! i ≫= λ d', deref d' h'
      | _ => None
      end
  end.

(** [store d h v] is the tree [d] after the value [h] points at has been
    overwritten with [v]. *)
Fixpoint store (d : json_data) (h : handle) (v : json_data) {struct h}
    : json_data :=
  match h with
  | [] => v
  | in_map k :: h' =>
      match d with
      | data_map m => data_map (alter (λ d', store d' h' v) k m)
      | _ => d
      end
  | in_array i :: h' =>
      match d with
      | data_array a => data_array (alter (λ d', store d' h' v) i a)
      | _ => d
      end
  end.

(** [unordered_map::emplace]: the member is added only when the map has
    no member with that key; otherwise the map is left as it is. *)
Definition emplace (k : string) (v : json_data)
    (m : gmap string json_data) : gmap string json_data :=
  match m !! k with
  | Some _ => m
  | None => <[k:=v]> m
  end.

(** ** The builder state (lines 132-168) *)

(** [struct json_data_state].  The top of the [std::stack] is the head of
    the list; [root] is [None] for [nullptr]. *)
Record json_data_state := {
  stack : list handle;
  tempKey : string;
  root : option json_data
}.

Definition set_stack (s : list handle) (st : json_data_state) :=
  {| stack := s; tempKey := tempKey st; root := root st |}.
Definition set_tempKey (k : string) (st : json_data_state) :=
  {| stack := stack st; tempKey := k; root := root st |}.
Definition set_root (r : option json_data) (st : json_data_state) :=
  {| stack := stack st; tempKey := tempKey st; root := r |}.

(** [json_data_state::insert], applied to the value [v] that the forwarded
    constructor arguments build.  The result is the returned pointer
    ([None] for [nullptr]) and the state after the call.  The outer
    [option] is [None] when the call has no defined behaviour: it reads
    through [stack.top()], which must point into the tree. *)
Definition insert (v : json_data) (st : json_data_state)
    : option (option handle * json_data_state) :=
  match root st with
  | None => Some (Some [], set_root (Some v) st)
  | Some r =>
      match stack st with
      | [] => Some (None, st)
      | current :: _ =>
          match deref r current with
          | None => None
          | Some (data_array a) =>
              Some (Some (current ++ [in_array (length a)]),
                    set_root (Some (store r current (data_array (a ++ [v])))) st)
          | Some (data_map m) =>
              Some (Some (current ++ [in_map (tempKey st)]),
                    set_root (Some (store r current
                                      (data_map (emplace (tempKey st) v m)))) st)
          | Some _ => Some (None, st)
          end
      end
  end.

(** ** The parser callbacks (lines 244-321)

    A callback returns an [int]: 1 to go on, 0 to cancel the parse.  The
    result is that integer and the state the callback leaves; [None] when
    the callback has no defined behaviour. *)

Abbreviation callback := (json_data_state → option (Z * json_data_state)).

(** [(int) (state->insert(...) != nullptr)] *)
Definition insert_scalar (v : json_data) : callback := λ st,
  '(p, st') ← insert v st;
  Some (if p is Some _ then 1 else 0, st').

(** [(bool) boolean] *)
Definition bool_of_int (i : Z) : bool := negb (i =? 0).

Definition read_null : callback := insert_scalar (json_data_of_type json_type_null).
Definition read_boolean (boolean : Z) : callback :=
  insert_scalar (data_boolean (bool_of_int boolean)).
Definition read_integer (integer : Z) : callback := insert_scalar (data_integer integer).
Definition read_double (real : float) : callback := insert_scalar (data_real real).
Definition read_string (stringVal : string) : callback :=
  insert_scalar (data_string stringVal).

(** The two callbacks that open a container (lines 276-287, 302-313). *)
Definition start_container (t : json_type) : callback := λ st,
  '(jdata, st') ← insert (json_data_of_type t) st;
  match jdata with
  | None => Some (0, st')
  | Some p => Some (1, set_stack (p :: stack st') st')
  end.

Definition start_map : callback := start_container json_type_map.
Definition start_array : callback := start_container json_type_array.

Definition map_key (key : string) : callback := λ st,
  Some (1, set_tempKey key st).

(** [state->stack.pop(); return 1;] — [pop] on an empty [std::stack] has
    no defined behaviour. *)
Definition end_container : callback := λ st,
  match stack st with
  | [] => None
  | _ :: rest => Some (1, set_stack rest st)
  end.

Definition end_map : callback := end_container.
Definition end_array : callback := end_container.

(** The events of the parser, one per callback of [reader_cb].  The
    callbacks ignore the [size] of a container and the [cte_pool] flag of a
    string, which are left out; the length of a string is part of it. *)
Inductive event :=
  | ev_null
  | ev_boolean (boolean : Z)
  | ev_integer (integer : Z)
  | ev_double (real : float)
  | ev_string (stringVal : string)
  | ev_start_map
  | ev_map_key (key : string)
  | ev_end_map
  | ev_start_array
  | ev_end_array.

Definition reader_cb (e : event) : callback :=
  match e with
  | ev_null => read_null
  | ev_boolean b => read_boolean b
  | ev_integer i => read_integer i
  | ev_double r => read_double r
  | ev_string s => read_string s
  | ev_start_map => start_map
  | ev_map_key k => map_key k
  | ev_end_map => end_map
  | ev_start_array => start_array
  | ev_end_array => end_array
  end.

(** [json_data_state state = {{}, "", nullptr};] (line 323) *)
Definition initial_state : json_data_state :=
  {| stack := []; tempKey := ""; root := None |}.

(** Modelled from the spec: the event source, which is the yajl parser and
    not part of the source tree.  It drives the builder event by event, and
    a callback that fails (returns 0) aborts the build.  The result is 1
    with the final state when every callback returned 1, and 0 with the
    state left by the failing callback otherwise. *)
Fixpoint deliver (events : list event) (st : json_data_state)
    : option (Z * json_data_state) :=
  match events with
  | [] => Some (1, st)
  | e :: events' =>
      '(ret, st') ← reader_cb e st;
      if decide (ret = 0) then Some (0, st') else deliver events' st'
  end.

(** ** The walk (lines 170-218) *)

(** The status of a generator call.  The header [yajl_gen.h] is not part of
    the source tree; the program names [yajl_gen_status_ok] only and
    compares every status with it, so the other statuses are kept by their
    code. *)
Inductive yajl_gen_status :=
  | yajl_gen_status_ok
  | yajl_gen_status_other (code : positive).

#[global] Instance yajl_gen_status_eq_dec : EqDecision yajl_gen_status.
Proof. solve_decision. Defined.

(** The generator functions [generate_json] calls, with their arguments. *)
Inductive gen_call :=
  | yajl_gen_null
  | yajl_gen_bool (boolean : Z)
  | yajl_gen_integer (number : Z)
  | yajl_gen_double (number : float)
  | yajl_gen_string (str : string)
  | yajl_gen_map_open
  | yajl_gen_map_close
  | yajl_gen_array_open
  | yajl_gen_array_close.

(** A generator [yajl_gen] is a machine of some state [G]: a call returns
    a status and leaves the generator in a new state. *)
Class YajlGen (G : Type) := yajl_gen_call : gen_call → G → yajl_gen_status * G.

(** [status = f(gen); if (status != yajl_gen_status_ok) return status;]
    followed by the rest of the function. *)
Definition and_then {G} (r : yajl_gen_status * G)
    (rest : G → yajl_gen_status * G) : yajl_gen_status * G :=
  if decide (r.1 = yajl_gen_status_ok) then rest r.2 else r.

(** [(int) root->boolean] *)
Definition int_of_bool (b : bool) : Z := if b then 1 else 0.

(** [generate_json].  The loop over an array visits the elements from the
    front to the back of the [std::list].  The order in which the loop over
    an [unordered_map] meets the members is left open by the container;
    here it is the order of [map_fold].  A [return] inside a loop leaves
    the status non-ok, and the remaining rounds then do nothing. *)
Fixpoint generate_json `{YajlGen G} (gen : G) (root : json_data)
    : yajl_gen_status * G :=
  match root with
  | data_null => yajl_gen_call yajl_gen_null gen
  | data_boolean b => yajl_gen_call (yajl_gen_bool (int_of_bool b)) gen
  | data_integer i => yajl_gen_call (yajl_gen_integer i) gen
  | data_real r => yajl_gen_call (yajl_gen_double r) gen
  | data_string s => yajl_gen_call (yajl_gen_string s) gen
  | data_map m =>
      and_then (yajl_gen_call yajl_gen_map_open gen) (λ gen,
      and_then
        (map_fold (λ key item r,
           and_then r (λ gen,
           and_then (yajl_gen_call (yajl_gen_string key) gen) (λ gen,
           generate_json gen item)))
           (yajl_gen_status_ok, gen) m)
        (yajl_gen_call yajl_gen_map_close))
  | data_array a =>
      and_then (yajl_gen_call yajl_gen_array_open gen) (λ gen,
      and_then
        (foldl (λ r item, and_then r (λ gen, generate_json gen item))
           (yajl_gen_status_ok, gen) a)
        (yajl_gen_call yajl_gen_array_close))
  end.

(** The same walk with the native call stack made visible.  [frames] is
    the number of activations of [generate_json] that are live when this
    one starts, itself included; the third component of the result is the
    largest number of live activations reached before it returns. *)
Definition and_then_frames {G} (r : yajl_gen_status * G * nat)
    (rest : G → yajl_gen_status * G * nat) : yajl_gen_status * G * nat :=
  if decide (r.1.1 = yajl_gen_status_ok)
  then let r' := rest r.1.2 in (r'.1, r.2 `max` r'.2)%nat
  else r.

Definition call_frames `{YajlGen G} (frames : nat) (c : gen_call) (gen : G)
    : yajl_gen_status * G * nat :=
  (yajl_gen_call c gen, frames).

Fixpoint generate_json_frames `{YajlGen G} (frames : nat) (gen : G)
    (root : json_data) : yajl_gen_status * G * nat :=
  match root with
  | data_null => call_frames frames yajl_gen_null gen
  | data_boolean b => call_frames frames (yajl_gen_bool (int_of_bool b)) gen
  | data_integer i => call_frames frames (yajl_gen_integer i) gen
  | data_real r => call_frames frames (yajl_gen_double r) gen
  | data_string s => call_frames frames (yajl_gen_string s) gen
  | data_map m =>
      and_then_frames (call_frames frames yajl_gen_map_open gen) (λ gen,
      and_then_frames
        (map_fold (λ key item r,
           and_then_frames r (λ gen,
           and_then_frames (call_frames frames (yajl_gen_string key) gen) (λ gen,
           generate_json_frames (S frames) gen item)))
           (yajl_gen_status_ok, gen, frames) m)
        (call_frames frames yajl_gen_map_close))
  | data_array a =>
      and_then_frames (call_frames frames yajl_gen_array_open gen) (λ gen,
      and_then_frames
        (foldl (λ r item,
           and_then_frames r (λ gen, generate_json_frames (S frames) gen item))
           (yajl_gen_status_ok, gen, frames) a)
        (call_frames frames yajl_gen_array_close))
  end.

(** A generator that accepts every call and keeps the calls it received,
    oldest first. *)
#[global] Instance recording_gen : YajlGen (list gen_call) :=
  λ c calls, (yajl_gen_status_ok, calls ++ [c]).

(** The calls [generate_json] makes for a value when the generator accepts
    them all. *)
Definition rendering (d : json_data) : list gen_call :=
  (generate_json (G:=list gen_call) [] d).2.

(** An array nested [n] levels deep around an empty array. *)
Fixpoint nested_array (n : nat) : json_data :=
  match n with
  | O => data_array []
  | S n' => data_array [nested_array n']
  end.

(** ** Notions used in the statements *)

(** The value a callback hands to [insert]: the scalar read, or the empty
    container a start callback builds.  Key and end events build none. *)
Definition event_value (e : event) : option json_data :=
  match e with
  | ev_null => Some (json_data_of_type json_type_null)
  | ev_boolean b => Some (data_boolean (bool_of_int b))
  | ev_integer i => Some (data_integer i)
  | ev_double r => Some (data_real r)
  | ev_string s => Some (data_string s)
  | ev_start_map => Some (json_data_of_type json_type_map)
  | ev_start_array => Some (json_data_of_type json_type_array)
  | ev_map_key _ | ev_end_map | ev_end_array => None
  end.

(** A value with nothing below it: a scalar or an empty container. *)
Definition leaf (d : json_data) : Prop :=
  match d with
  | data_map m => m = ∅
  | data_array a => a = []
  | _ => True
  end.

(** [same_node x y]: [y] is what the object [x] can have become while the
    builder ran.  A scalar is never written again; a container keeps its
    type while its content grows. *)
Definition same_node (x y : json_data) : Prop :=
  match x with
  | data_map _ => type y = json_type_map
  | data_array _ => type y = json_type_array
  | _ => y = x
  end.

(** [preserved r r']: every object of the tree [r] is still in [r'], at
    the same place. *)
Definition preserved (r r' : json_data) : Prop :=
  ∀ p x, deref r p = Some x → ∃ x', deref r' p = Some x' ∧ same_node x x'.

(** [grown_by_one r r']: an array of the tree [r'] is empty, or it is an
    array of [r], at the same place, that has gained one element at most. *)
Definition grown_by_one (r r' : json_data) : Prop :=
  ∀ p a', deref r' p = Some (data_array a') →
    a' = [] ∨
    ∃ a, deref r p = Some (data_array a) ∧ (length a' ≤ S (length a))%nat.

(** What one callback can do to the tree: nothing, create the root, or
    overwrite one container with a grown copy of itself. *)
Definition root_step (o o' : option json_data) : Prop :=
  o' = o ∨
  (o = None ∧ ∃ v, leaf v ∧ o' = Some v) ∨
  (∃ r cur old new,
      o = Some r ∧ deref r cur = Some old ∧ o' = Some (store r cur new) ∧
      preserved old new ∧ grown_by_one old new).

(** The pointers on the stack point at containers. *)
Definition points_at_containers (st : json_data_state) : Prop :=
  ∀ h, h ∈ stack st →
    ∃ r x, root st = Some r ∧ deref r h = Some x ∧
           (type x = json_type_map ∨ type x = json_type_array).

(** The map on top of the stack, if a map is there, has no member under
    the key in [tempKey]. *)
Definition no_duplicate_key (st : json_data_state) : Prop :=
  ∀ r cur s m,
    root st = Some r → stack st = cur :: s →
    deref r cur = Some (data_map m) → m !! tempKey st = None.

(** The pointers on the stack point into the tree. *)
Definition stack_valid (st : json_data_state) : Prop :=
  ∀ h, h ∈ stack st → ∃ r x, root st = Some r ∧ deref r h = Some x.

(** The key the last map key event of [events] carried, [k] if there is
    none. *)
Definition last_key (events : list event) (k : string) : string :=
  foldl (λ k e, if e is ev_map_key k' then k' else k) k events.

(** The three parts of "an array keeps the order of arrival", for the
    events [es] and the tree [r] they build.

    [appends_at_back es]: a value event of [es] that meets an array on top
    of the stack puts its value behind the elements the array has. *)
Definition appends_at_back (es : list event) : Prop :=
  ∀ es1 e es2 st1 r1 cur s a1 v,
    es = es1 ++ e :: es2 →
    deliver es1 initial_state = Some (1, st1) →
    root st1 = Some r1 → stack st1 = cur :: s →
    deref r1 cur = Some (data_array a1) →
    event_value e = Some v →
    ∃ st2 r2,
      deliver (es1 ++ [e]) initial_state = Some (1, st2) ∧
      root st2 = Some r2 ∧ deref r2 cur = Some (data_array (a1 ++ [v])).

(** [held_every_prefix es r]: for an array [a] of [r] and a number [j] of
    its elements, there was a moment of [es] when the array held [j]
    elements, and they are the first [j] elements of [a], in place. *)
Definition held_every_prefix (es : list event) (r : json_data) : Prop :=
  ∀ p a j,
    deref r p = Some (data_array a) → (j ≤ length a)%nat →
    ∃ es1 es2 st1 r1 a1,
      es = es1 ++ es2 ∧
      deliver es1 initial_state = Some (1, st1) ∧
      root st1 = Some r1 ∧ deref r1 p = Some (data_array a1) ∧
      length a1 = j ∧
      ∀ i x, a1 !! i = Some x → ∃ x', a !! i = Some x' ∧ same_node x x'.

(** [renders_in_stored_order r]: the walk of an array of [r] opens the
    array, walks the elements one after the other from the first to the
    last, and closes the array. *)
Definition renders_in_stored_order (r : json_data) : Prop :=
  ∀ p a,
    deref r p = Some (data_array a) →
    rendering (data_array a) =
    yajl_gen_array_open :: concat (rendering <$> a) ++ [yajl_gen_array_close].

(** The number of nodes of a value, for inductions on values. *)
Fixpoint size (d : json_data) : nat :=
  match d with
  | data_map m => S (map_fold (λ _ item n, size item + n)%nat O m)
  | data_array a => S (foldr (λ item n, size item + n)%nat O a)
  | _ => 1%nat
  end.

(** How many containers are nested in one another below the top of a
    value: 0 for a scalar and for an empty container. *)
Fixpoint nesting (d : json_data) : nat :=
  match d with
  | data_map m => map_fold (λ _ item n, S (nesting item) `max` n)%nat O m
  | data_array a => foldr (λ item n, S (nesting item) `max` n)%nat O a
  | _ => O
  end.

(** ** More notions: the events of a value, the stack, the generator
    under observation, the input *)
(** ** The events of a value *)

(** The events the parser delivers for a text that denotes the value [d],
    each member of a map once.  The members of a map come in the order in
    which [generate_json] meets them. *)
Fixpoint events_of (d : json_data) : list event :=
  match d with
  | data_null => [ev_null]
  | data_boolean b => [ev_boolean (int_of_bool b)]
  | data_integer i => [ev_integer i]
  | data_real r => [ev_double r]
  | data_string s => [ev_string s]
  | data_map m =>
      ev_start_map ::
      map_fold (λ key item done, done ++ ev_map_key key :: events_of item) [] m
      ++ [ev_end_map]
  | data_array a =>
      ev_start_array :: concat (events_of <$> a) ++ [ev_end_array]
  end.

(** What the first event of [events_of d] hands to [insert]: a scalar
    itself, a container empty. *)
Definition shell (d : json_data) : json_data :=
  match d with
  | data_map _ => data_map ∅
  | data_array _ => data_array []
  | _ => d
  end.

(** The generator call that mirrors an event. *)
Definition event_call (e : event) : gen_call :=
  match e with
  | ev_null => yajl_gen_null
  | ev_boolean b => yajl_gen_bool b
  | ev_integer i => yajl_gen_integer i
  | ev_double r => yajl_gen_double r
  | ev_string s => yajl_gen_string s
  | ev_start_map => yajl_gen_map_open
  | ev_map_key k => yajl_gen_string k
  | ev_end_map => yajl_gen_map_close
  | ev_start_array => yajl_gen_array_open
  | ev_end_array => yajl_gen_array_close
  end.

(** [events_for d es]: [es] is a sequence of events the parser can deliver
    for a text that denotes the value [d].  The elements of an array come
    from the first to the last; the members of a map come each once, in
    any order, each as its key and then the events of its value. *)
#[warnings="-register-all"]
Inductive events_for : json_data → list event → Prop :=
  | events_for_null : events_for data_null [ev_null]
  | events_for_boolean b :
      events_for (data_boolean b) [ev_boolean (int_of_bool b)]
  | events_for_integer i : events_for (data_integer i) [ev_integer i]
  | events_for_real r : events_for (data_real r) [ev_double r]
  | events_for_string s : events_for (data_string s) [ev_string s]
  | events_for_map m members ess :
      members ≡ₚ map_to_list m →
      Forall2 (λ member es, events_for member.2 es) members ess →
      events_for (data_map m)
        (ev_start_map ::
         concat (zip_with (λ member es, ev_map_key member.1 :: es) members ess)
         ++ [ev_end_map])
  | events_for_array a ess :
      Forall2 events_for a ess →
      events_for (data_array a)
        (ev_start_array :: concat ess ++ [ev_end_array]).

(** ** Counting and shape of the stack *)

(** 1 for an event that opens a container, 1 for one that closes one. *)
Definition opens (e : event) : nat :=
  match e with
  | ev_start_map | ev_start_array => 1
  | _ => 0
  end.

Definition closes (e : event) : nat :=
  match e with
  | ev_end_map | ev_end_array => 1
  | _ => 0
  end.

(** [nested_path s]: the pointer at the bottom of the stack [s] is the one
    to the root, and every other pointer is to a member or an element of
    the container the pointer below it points at. *)
Fixpoint nested_path (s : list handle) : Prop :=
  match s with
  | [] => True
  | h :: s' =>
      match s' with
      | [] => h = []
      | h' :: _ => (∃ m, h = h' ++ [m]) ∧ nested_path s'
      end
  end.

(** ** A generator under observation *)

(** The generator [G] with a record of the calls made on it and of the
    status each call returned, oldest first. *)
#[global] Instance logging_gen `{YajlGen G}
    : YajlGen (G * list (gen_call * yajl_gen_status)) :=
  λ c s,
    let r := yajl_gen_call c s.1 in
    (r.1, (r.2, s.2 ++ [(c, r.1)])).

(** The record of calls that were all accepted. *)
Definition accepted (calls : list gen_call)
    : list (gen_call * yajl_gen_status) :=
  (λ c, (c, yajl_gen_status_ok)) <$> calls.

(** [made log r calls]: the result [r] of a piece of the walk that was to
    make [calls], on a generator whose record was [log].  Either all the
    calls were made and accepted, or they were made up to the first one
    refused, and the status of that one is the status of [r]. *)
Definition made {G} (log : list (gen_call * yajl_gen_status))
    (r : yajl_gen_status * (G * list (gen_call * yajl_gen_status)))
    (calls : list gen_call) : Prop :=
  (r.1 = yajl_gen_status_ok ∧ r.2.2 = log ++ accepted calls) ∨
  (r.1 ≠ yajl_gen_status_ok ∧
   ∃ done c rest, calls = done ++ c :: rest ∧
                  r.2.2 = log ++ accepted done ++ [(c, r.1)]).

(** ** Reading the input (main, lines 327-338) *)

(** [constexpr size_t READ_BUFSIZE = 4096;] *)
Definition READ_BUFSIZE : nat := 4096.
Arguments READ_BUFSIZE : simpl never.

(** A [std::vector<unsigned char>]: its elements and its capacity. *)
Record vector := {
  elems : list Byte.byte;
  capacity : nat
}.

(** [fread(ptr, 1, n, f)] on a file of which the bytes [f] are still to be
    read: it delivers [n] bytes, or what is left when the file ends before
    (no read error).  The result is the bytes delivered and the bytes
    still to be read. *)
Definition fread (n : nat) (f : list Byte.byte) : list Byte.byte * list Byte.byte :=
  (take n f, drop n f).

(** Storing [chunk] at [data() + off]: [None] when the bytes do not fit in
    the elements of the vector. *)
Definition write_at (l : list Byte.byte) (off : nat) (chunk : list Byte.byte)
    : option (list Byte.byte) :=
  if decide (off + length chunk ≤ length l)%nat
  then Some (take off l ++ chunk ++ drop (off + length chunk) l)
  else None.

Section reading.
(** The capacity a vector of capacity [c] takes when it has to grow to [n]
    elements; the library chooses it. *)
Variable new_capacity : nat → nat → nat.

(** [v.resize(n)]: the elements beyond [n] go, the new ones are zero. *)
Definition resize (n : nat) (v : vector) : vector :=
  if decide (n ≤ length (elems v))%nat
  then {| elems := take n (elems v); capacity := capacity v |}
  else {| elems := elems v ++ replicate (n - length (elems v)) Byte.x00;
          capacity := if decide (n ≤ capacity v)%nat then capacity v
                      else new_capacity (capacity v) n |}.

(** The loop [while (readed == READ_BUFSIZE)], which is entered with
    [readed = READ_BUFSIZE].  The result is the buffer and [fullSize]
    after the loop; [Some None] when [fread] is given a place outside the
    buffer; [None] when [fuel] rounds were not enough. *)
Fixpoint read_loop (fuel : nat) (f : list Byte.byte) (buf : vector)
    (fullSize : nat) : option (option (vector * nat)) :=
  match fuel with
  | O => None
  | S fuel' =>
      let '(chunk, f') := fread READ_BUFSIZE f in
      let readed := length chunk in
      match write_at (elems buf) fullSize chunk with
      | None => Some None
      | Some l =>
          let fullSize' := (fullSize + readed)%nat in
          let buf' :=
            resize (capacity buf + READ_BUFSIZE)
              {| elems := l; capacity := capacity buf |} in
          if decide (readed = READ_BUFSIZE)
          then read_loop fuel' f' buf' fullSize'
          else Some (Some (buf', fullSize'))
      end
  end.

(** [std::vector<unsigned char> buf(READ_BUFSIZE); size_t fullSize = 0;]
    and the loop; [c0] is the capacity the vector starts with. *)
Definition read_input (fuel : nat) (f : list Byte.byte) (c0 : nat)
    : option (option (vector * nat)) :=
  read_loop fuel f
    {| elems := replicate READ_BUFSIZE Byte.x00; capacity := c0 |} 0.
End reading.

(** * Properties *)

(** ** Induction on values *)

Lemma size_map_member (m : gmap string json_data) k d :
  m !! k = Some d → (size d < size (data_map m))%nat.
Proof.
  simpl. induction m as [|j x m Hj Hfirst IHm] using map_first_key_ind.
  - by rewrite lookup_empty.
  - rewrite map_fold_insert_first_key by done.
    rewrite lookup_insert. case_decide; intros Hk; simplify_eq; [lia|].
    specialize (IHm Hk). lia.
Qed.

Lemma size_array_member (a : list json_data) d :
  d ∈ a → (size d < size (data_array a))%nat.
Proof. simpl. induction 1; simpl; lia. Qed.

Lemma json_data_nested_ind (P : json_data → Prop) :
  P data_null →
  (∀ b, P (data_boolean b)) →
  (∀ i, P (data_integer i)) →
  (∀ r, P (data_real r)) →
  (∀ s, P (data_string s)) →
  (∀ m, map_Forall (λ _, P) m → P (data_map m)) →
  (∀ a, Forall P a → P (data_array a)) →
  ∀ d, P d.
Proof.
  intros Hnull Hbool Hint Hreal Hstr Hmap Harr d.
  remember (size d) as n eqn:Hn. revert d Hn.
  induction n as [n IH] using lt_wf_ind. intros d ->.
  destruct d as [| b | i | r | s | m | a]; [done..| |].
  - apply Hmap. intros k d Hk.
    apply (IH (size d)); [by eapply size_map_member | done].
  - apply Harr, Forall_forall. intros d Hd.
    apply (IH (size d)); [by apply size_array_member | done].
Qed.

(** ** Reading and writing through pointers *)

Lemma deref_app d h1 h2 :
  deref d (h1 ++ h2) = deref d h1 ≫= λ d', deref d' h2.
Proof.
  revert d. induction h1 as [|[k|i] h1 IH]; intros d; simpl; [done| |].
  - destruct d as [| | | | | m | a]; try done.
    destruct (m !! k) as [d'|]; simpl; [apply IH | done].
  - destruct d as [| | | | | m | a]; try done.
    destruct (a !! i) as [d'|]; simpl; [apply IH | done].
Qed.

Lemma deref_store_eq d h v :
  is_Some (deref d h) → deref (store d h v) h = Some v.
Proof.
  revert d. induction h as [|[k|i] h IH]; intros d [x Hx]; simpl in *; [done| |].
  - destruct d as [| | | | | m | a]; try done.
    rewrite lookup_alter_eq.
    destruct (m !! k) as [d'|]; simpl in *; [apply IH; eauto | done].
  - destruct d as [| | | | | m | a]; try done.
    rewrite list_lookup_alter_eq.
    destruct (a !! i) as [d'|]; simpl in *; [apply IH; eauto | done].
Qed.

Lemma leaf_deref v p x : leaf v → deref v p = Some x → p = [] ∧ x = v.
Proof.
  destruct p as [|[k|i] p]; simpl; [by intros _ [= ->]|..];
    destruct v as [| | | | | m | a]; simpl; try done; by intros ->.
Qed.

Lemma event_value_leaf e v : event_value e = Some v → leaf v.
Proof. destruct e; intros [= <-]; done. Qed.

Lemma same_node_refl x : same_node x x.
Proof. by destruct x. Qed.

Lemma same_node_type x y : same_node x y → type y = type x.
Proof. destruct x; simpl; by intros ->. Qed.

Lemma same_node_trans x y z : same_node x y → same_node y z → same_node x z.
Proof.
  destruct x; simpl; try (by intros ->);
    destruct y; simpl; try done; by destruct z.
Qed.

Lemma preserved_refl r : preserved r r.
Proof. intros p x Hx. eauto using same_node_refl. Qed.

Lemma preserved_trans r1 r2 r3 :
  preserved r1 r2 → preserved r2 r3 → preserved r1 r3.
Proof.
  intros H12 H23 p x Hx.
  destruct (H12 p x Hx) as (y & Hy & Hxy).
  destruct (H23 p y Hy) as (z & Hz & Hyz).
  eauto using same_node_trans.
Qed.

(** Overwriting a container with a grown copy of itself keeps every object
    of the whole tree in place. *)
Lemma store_preserved d h old new :
  deref d h = Some old → preserved old new → preserved d (store d h new).
Proof.
  intros Hold Hnew. revert d Hold.
  induction h as [|[k|i] h IH]; intros d Hold; simpl in *.
  - by simplify_eq.
  - destruct d as [| | | | | m | a]; try done.
    destruct (m !! k) as [d'|] eqn:Hk; simpl in *; [|done].
    intros [|[k'|i'] p] x Hx; simpl in *; simplify_eq; [by eexists | ].
    destruct (decide (k = k')) as [<-|Hne].
    + rewrite lookup_alter_eq, Hk in *. simpl in *. by apply IH.
    + rewrite lookup_alter_ne by done. eauto using same_node_refl.
  - destruct d as [| | | | | m | a]; try done.
    destruct (a !! i) as [d'|] eqn:Hi; simpl in *; [|done].
    intros [|[k'|i'] p] x Hx; simpl in *; simplify_eq; [by eexists | ].
    destruct (decide (i = i')) as [<-|Hne].
    + rewrite list_lookup_alter_eq, Hi in *. simpl in *. by apply IH.
    + rewrite list_lookup_alter_ne by done. eauto using same_node_refl.
Qed.

Lemma emplace_back_preserved a v :
  preserved (data_array a) (data_array (a ++ [v])).
Proof.
  intros [|[k|i] p] x Hx; simpl in *; simplify_eq; [by eexists | ].
  destruct (a !! i) as [d'|] eqn:Hi; simpl in *; [|done].
  erewrite lookup_app_l_Some by done. simpl. eauto using same_node_refl.
Qed.

Lemma emplace_preserved k v m :
  preserved (data_map m) (data_map (emplace k v m)).
Proof.
  unfold emplace. destruct (m !! k) eqn:Hk; [apply preserved_refl|].
  intros [|[k'|i] p] x Hx; simpl in *; simplify_eq; [by eexists | ].
  destruct (m !! k') as [d'|] eqn:Hk'; simpl in *; [|done].
  rewrite lookup_insert_ne by congruence. rewrite Hk'. simpl.
  eauto using same_node_refl.
Qed.

(** The same three facts for [grown_by_one]. *)
Lemma grown_by_one_refl r : grown_by_one r r.
Proof. intros p a Ha. right. eauto. Qed.

Lemma store_grown d h old new :
  deref d h = Some old → grown_by_one old new → grown_by_one d (store d h new).
Proof.
  intros Hold Hnew. revert d Hold.
  induction h as [|[k|i] h IH]; intros d Hold; simpl in *.
  - by simplify_eq.
  - destruct d as [| | | | | m | a]; try done.
    destruct (m !! k) as [d'|] eqn:Hk; simpl in *; [|done].
    intros [|[k'|i'] p] x Hx; simpl in *; simplify_eq.
    destruct (decide (k = k')) as [<-|Hne].
    + rewrite lookup_alter_eq, Hk in Hx. simpl in Hx.
      rewrite Hk. simpl. by eapply IH.
    + rewrite lookup_alter_ne in Hx by done. right. eauto.
  - destruct d as [| | | | | m | a]; try done.
    destruct (a !! i) as [d'|] eqn:Hi; simpl in *; [|done].
    intros [|[k'|i'] p] x Hx; simpl in *; simplify_eq.
    { right. eexists. split; [done|]. rewrite length_alter. lia. }
    destruct (decide (i = i')) as [<-|Hne].
    + rewrite list_lookup_alter_eq, Hi in Hx. simpl in Hx.
      rewrite Hi. simpl. by eapply IH.
    + rewrite list_lookup_alter_ne in Hx by done. right. eauto.
Qed.

Lemma emplace_back_grown a v :
  leaf v → grown_by_one (data_array a) (data_array (a ++ [v])).
Proof.
  intros Hv [|[k|i] p] x Hx; simpl in *; simplify_eq.
  { right. eexists. split; [done|]. rewrite length_app. simpl. lia. }
  destruct ((a ++ [v]) !! i) as [d'|] eqn:Hi; simpl in *; [|done].
  apply lookup_app_Some in Hi as [Hi|[_ Hi]].
  - right. rewrite Hi. simpl. eauto.
  - apply list_lookup_singleton_Some in Hi as [_ <-].
    destruct (leaf_deref _ _ _ Hv Hx) as [-> <-]. by left.
Qed.

Lemma emplace_grown k v m :
  leaf v → grown_by_one (data_map m) (data_map (emplace k v m)).
Proof.
  intros Hv. unfold emplace.
  destruct (m !! k) eqn:Hk; [apply grown_by_one_refl|].
  intros [|[k'|i] p] x Hx; simpl in *; simplify_eq.
  destruct (decide (k = k')) as [<-|Hne].
  - rewrite lookup_insert_eq in Hx. simpl in Hx.
    destruct (leaf_deref _ _ _ Hv Hx) as [-> <-]. by left.
  - rewrite lookup_insert_ne in Hx by done. right. eauto.
Qed.

(** ** One call of [insert] *)

Ltac insert_cases H :=
  unfold insert in H;
  repeat match type of H with
         | context [match ?x with _ => _ end] => destruct x eqn:?
         end;
  simplify_eq/=.

Lemma insert_tempKey v st p st' :
  insert v st = Some (p, st') → tempKey st' = tempKey st.
Proof. intros H. by insert_cases H. Qed.

Lemma insert_stack v st p st' :
  insert v st = Some (p, st') → stack st' = stack st.
Proof. intros H. by insert_cases H. Qed.

Lemma insert_nullptr v st st' : insert v st = Some (None, st') → st' = st.
Proof. intros H. by insert_cases H. Qed.

Lemma insert_root_step v st p st' :
  leaf v → insert v st = Some (p, st') → root_step (root st) (root st').
Proof.
  intros Hv H. insert_cases H; try (by left).
  - right; right. eexists _, _, _, _.
    split_and!; [done..|apply emplace_preserved|by apply emplace_grown].
  - right; right. eexists _, _, _, _.
    split_and!; [done..|apply emplace_back_preserved|by apply emplace_back_grown].
  - right; left. eauto.
Qed.

Lemma emplace_lookup_is_Some k v m : is_Some (emplace k v m !! k).
Proof.
  unfold emplace. destruct (m !! k) eqn:Hk; [by rewrite Hk|].
  by rewrite lookup_insert_eq.
Qed.

(** The pointer [insert] returns points into the tree. *)
Lemma insert_pointer v st h st' :
  insert v st = Some (Some h, st') →
  ∃ r' x, root st' = Some r' ∧ deref r' h = Some x.
Proof.
  intros H. insert_cases H.
  - destruct (emplace_lookup_is_Some (tempKey st) v map) as [x Hx].
    eexists _, x. split; [done|].
    rewrite deref_app, deref_store_eq by eauto. simpl. by rewrite Hx.
  - eexists _, v. split; [done|].
    rewrite deref_app, deref_store_eq by eauto. simpl.
    by rewrite list_lookup_middle.
  - eauto.
Qed.

(** ** One callback *)

Ltac unfold_callbacks :=
  unfold read_null, read_boolean, read_integer, read_double, read_string,
    start_map, start_array, map_key, end_map, end_array,
    insert_scalar, start_container, end_container.

Lemma reader_cb_inv e st ret st' :
  reader_cb e st = Some (ret, st') →
  match event_value e with
  | Some v =>
      ∃ p st1, insert v st = Some (p, st1) ∧
        ret = (if p is Some _ then 1 else 0) ∧
        tempKey st' = tempKey st1 ∧ root st' = root st1 ∧
        (stack st' = stack st1 ∨
         ∃ h, p = Some h ∧ (e = ev_start_map ∨ e = ev_start_array) ∧
              stack st' = h :: stack st1)
  | None =>
      ret = 1 ∧ root st' = root st ∧
      tempKey st' = (if e is ev_map_key k then k else tempKey st) ∧
      (stack st' = stack st ∨ ∃ top, stack st = top :: stack st')
  end.
Proof.
  destruct e; simpl; unfold_callbacks; intros H;
    try (destruct (insert _ st) as [[[h|] st1]|] eqn:Hins; simplify_eq/=;
         eexists _, _; (split; [done|]); simpl; split_and!; try done;
         by (left + (right; eexists; split_and!; eauto))).
  - simplify_eq/=. split_and!; try done. by left.
  - destruct (stack st) eqn:Hs; simplify_eq/=. split_and!; try done.
    right. by eexists.
  - destruct (stack st) eqn:Hs; simplify_eq/=. split_and!; try done.
    right. by eexists.
Qed.

Lemma reader_cb_root_step e st ret st' :
  reader_cb e st = Some (ret, st') → root_step (root st) (root st').
Proof.
  intros H. apply reader_cb_inv in H.
  destruct (event_value e) as [v|] eqn:He.
  - destruct H as (p & st1 & Hins & _ & _ & -> & _).
    eauto using insert_root_step, event_value_leaf.
  - destruct H as (_ & -> & _). by left.
Qed.

Lemma reader_cb_tempKey e st ret st' :
  reader_cb e st = Some (ret, st') →
  tempKey st' = if e is ev_map_key k then k else tempKey st.
Proof.
  intros H. apply reader_cb_inv in H.
  destruct (event_value e) as [v|] eqn:He.
  - destruct H as (p & st1 & Hins & _ & -> & _).
    apply insert_tempKey in Hins. by destruct e.
  - by destruct H as (_ & _ & -> & _).
Qed.

Lemma root_step_preserved r o' :
  root_step (Some r) o' → ∃ r', o' = Some r' ∧ preserved r r'.
Proof.
  intros [->|[[? _]|(r0 & cur & old & new & ? & Hold & -> & Hp & _)]];
    simplify_eq; eauto using preserved_refl, store_preserved.
Qed.

Lemma root_step_grown o r' p a' :
  root_step o (Some r') → deref r' p = Some (data_array a') →
  a' = [] ∨
  ∃ r a, o = Some r ∧ deref r p = Some (data_array a) ∧
         (length a' ≤ S (length a))%nat.
Proof.
  intros [<-|[(-> & v & Hv & ?)|(r0 & cur & old & new & -> & Hold & ? & _ & Hg)]] Hp;
    simplify_eq.
  - right. eauto 10.
  - left. by destruct (leaf_deref _ _ _ Hv Hp) as [-> <-].
  - destruct (store_grown _ _ _ _ Hold Hg _ _ Hp) as [->|(a & ? & ?)]; eauto 10.
Qed.

Lemma stack_valid_initial : stack_valid initial_state.
Proof. intros h Hh. by apply elem_of_nil in Hh. Qed.

Lemma reader_cb_stack_valid e st ret st' :
  stack_valid st → reader_cb e st = Some (ret, st') → stack_valid st'.
Proof.
  intros Hst H.
  assert (Hold : ∀ h, h ∈ stack st → ∃ r x, root st' = Some r ∧ deref r h = Some x).
  { intros h Hh. destruct (Hst h Hh) as (r & x & Hr & Hx).
    pose proof (reader_cb_root_step _ _ _ _ H) as Hstep. rewrite Hr in Hstep.
    destruct (root_step_preserved _ _ Hstep) as (r' & Hr' & Hp).
    destruct (Hp _ _ Hx) as (x' & Hx' & _). eauto. }
  apply reader_cb_inv in H. destruct (event_value e) as [v|].
  - destruct H as (p & st1 & Hins & _ & _ & Hroot & Hstack).
    pose proof (insert_stack _ _ _ _ Hins) as Hs1.
    intros h Hh. destruct Hstack as [Hstack|(h' & -> & _ & Hstack)];
      rewrite Hstack, ?Hs1 in Hh; [by apply Hold|].
    apply elem_of_cons in Hh as [->|Hh]; [|by apply Hold].
    rewrite Hroot. by eapply insert_pointer.
  - destruct H as (_ & _ & _ & [Hstack|(top & Hstack)]);
      intros h Hh; apply Hold.
    + by rewrite <- Hstack.
    + rewrite Hstack. by apply elem_of_cons; right.
Qed.

(** Where the stack points into the tree, a callback has a defined
    behaviour, but for the end callbacks on an empty stack. *)
Lemma reader_cb_defined e st :
  stack_valid st → (event_value e = None → stack st ≠ []) →
  is_Some (reader_cb e st).
Proof.
  intros Hst Hne.
  assert (Hins : ∀ v, is_Some (insert v st)).
  { intros v. unfold insert. destruct (root st) as [r|] eqn:Hr; [|done].
    destruct (stack st) as [|cur s] eqn:Hs; [done|].
    destruct (Hst cur) as (r' & x & ? & Hx); [rewrite Hs; left|].
    simplify_eq. rewrite Hx. by destruct x. }
  destruct e; simpl; unfold_callbacks;
    try (by destruct (stack st); [destruct Hne|]);
    try done;
    match goal with
    | |- context [insert ?v st] =>
        destruct (Hins v) as [[[h|] st1] ->]; simpl; done
    end.
Qed.

(** ** Sequences of events *)

Lemma reader_cb_ret e st ret st' :
  reader_cb e st = Some (ret, st') → ret = 0 ∨ ret = 1.
Proof.
  intros H. apply reader_cb_inv in H. destruct (event_value e).
  - destruct H as ([h|] & st1 & _ & -> & _); auto.
  - destruct H as (-> & _); auto.
Qed.

Lemma deliver_ret es st ret st' :
  deliver es st = Some (ret, st') → ret = 0 ∨ ret = 1.
Proof.
  revert st. induction es as [|e es IH]; intros st; simpl.
  - intros [= <- <-]. auto.
  - destruct (reader_cb e st) as [[r st1]|]; simpl; [|done].
    case_decide; [intros [= <- <-]; auto | apply IH].
Qed.

Lemma deliver_app es1 es2 st :
  deliver (es1 ++ es2) st =
  '(ret, st1) ← deliver es1 st;
  if decide (ret = 0) then Some (0, st1) else deliver es2 st1.
Proof.
  revert st. induction es1 as [|e es1 IH]; intros st; simpl; [done|].
  destruct (reader_cb e st) as [[r st1]|]; simpl; [|done].
  case_decide; [by simpl | apply IH].
Qed.

Lemma deliver_snoc es e st st' :
  deliver (es ++ [e]) st = Some (1, st') →
  ∃ st1, deliver es st = Some (1, st1) ∧ reader_cb e st1 = Some (1, st').
Proof.
  rewrite deliver_app.
  destruct (deliver es st) as [[ret st1]|] eqn:Hes; simpl; [|done].
  case_decide; [done|]. intros He.
  destruct (deliver_ret _ _ _ _ Hes) as [->| ->]; [done|].
  destruct (reader_cb e st1) as [[r st2]|] eqn:Hcb; simpl in He; [|done].
  case_decide; simplify_eq.
  destruct (reader_cb_ret _ _ _ _ Hcb) as [->| ->]; [done|]. eauto.
Qed.

Lemma deliver_preserved es st ret st' r :
  deliver es st = Some (ret, st') → root st = Some r →
  ∃ r', root st' = Some r' ∧ preserved r r'.
Proof.
  revert st r. induction es as [|e es IH]; intros st r; simpl.
  - intros [= <- <-] Hr. eauto using preserved_refl.
  - destruct (reader_cb e st) as [[c st1]|] eqn:Hcb; simpl; [|done].
    intros Hes Hr.
    pose proof (reader_cb_root_step _ _ _ _ Hcb) as Hstep. rewrite Hr in Hstep.
    destruct (root_step_preserved _ _ Hstep) as (r1 & Hr1 & Hp1).
    case_decide; simplify_eq; [eauto|].
    destruct (IH _ _ Hes Hr1) as (r' & Hr' & Hp'). eauto using preserved_trans.
Qed.

Lemma deliver_stack_valid es st ret st' :
  stack_valid st → deliver es st = Some (ret, st') → stack_valid st'.
Proof.
  revert st. induction es as [|e es IH]; intros st Hst; simpl.
  - by intros [= <- <-].
  - destruct (reader_cb e st) as [[c st1]|] eqn:Hcb; simpl; [|done].
    apply reader_cb_stack_valid in Hcb; [|done].
    case_decide; [by intros [= <- <-] | by apply IH].
Qed.

(** Every array of a tree that a sequence of events has built held, at some
    earlier moment of the sequence, any given number of its elements. *)
Lemma deliver_array_prefix es st r p a j :
  deliver es initial_state = Some (1, st) → root st = Some r →
  deref r p = Some (data_array a) → (j ≤ length a)%nat →
  ∃ es1 es2 st1 r1 a1,
    es = es1 ++ es2 ∧ deliver es1 initial_state = Some (1, st1) ∧
    root st1 = Some r1 ∧ deref r1 p = Some (data_array a1) ∧ length a1 = j.
Proof.
  revert st r a. induction es as [|e es IH] using rev_ind; intros st r a.
  { by intros [= <-]. }
  intros Hes Hr Hp Hj.
  destruct (decide (j = length a)) as [->|Hne].
  { exists (es ++ [e]), [], st, r, a. by rewrite app_nil_r. }
  destruct (deliver_snoc _ _ _ _ Hes) as (st0 & Hes0 & Hcb).
  pose proof (reader_cb_root_step _ _ _ _ Hcb) as Hstep. rewrite Hr in Hstep.
  destruct (root_step_grown _ _ _ _ Hstep Hp) as [->|(r0 & a0 & Hr0 & Hp0 & Hlen)].
  { simpl in *. lia. }
  destruct (IH st0 r0 a0) as (es1 & es2 & st1 & r1 & a1 & -> & ?);
    [done..|lia|].
  exists es1, (es2 ++ [e]), st1, r1, a1. by rewrite app_assoc.
Qed.

(** ** The walk *)

Section walk.
Context `{YajlGen G}.

Lemma and_then_ext (r r' : yajl_gen_status * G) rest rest' :
  r = r' → (∀ gen, rest gen = rest' gen) → and_then r rest = and_then r' rest'.
Proof. intros -> Hrest. unfold and_then. by case_decide. Qed.

Lemma and_then_frames_erase (r : yajl_gen_status * G * nat) rest :
  (and_then_frames r rest).1 = and_then r.1 (λ gen, (rest gen).1).
Proof. unfold and_then_frames, and_then. by case_decide. Qed.

(** Forgetting the count of activations gives back [generate_json]. *)
Lemma generate_json_frames_erase d :
  ∀ frames (gen : G),
    (generate_json_frames frames gen d).1 = generate_json gen d.
Proof.
  induction d as [| b | i | r | s | m IH | a IH] using json_data_nested_ind;
    intros frames gen; try done; simpl.
  - rewrite and_then_frames_erase. apply and_then_ext; [done|]. intros gen1.
    rewrite and_then_frames_erase. apply and_then_ext; [|done].
    rewrite !map_fold_foldr. apply map_Forall_to_list in IH.
    induction IH as [|[key item] l Hitem _ IHl]; [done|]. simpl in *.
    rewrite and_then_frames_erase. apply and_then_ext; [done|]. intros gen2.
    rewrite and_then_frames_erase. by apply and_then_ext.
  - rewrite and_then_frames_erase. apply and_then_ext; [done|]. intros gen1.
    rewrite and_then_frames_erase. apply and_then_ext; [|done].
    change (yajl_gen_status_ok, gen1)
      with (yajl_gen_status_ok, gen1, frames).1 at 2.
    generalize (yajl_gen_status_ok, gen1, frames).
    induction IH as [|item l Hitem _ IHl]; intros acc; [done|]. simpl.
    rewrite IHl. f_equal. rewrite and_then_frames_erase.
    by apply and_then_ext.
Qed.

(** When the generator accepts every call, the walk succeeds and its
    deepest activation is as deep as the value is nested. *)
Section accepting.
Hypothesis accepts :
  ∀ c (gen : G), (yajl_gen_call c gen).1 = yajl_gen_status_ok.

Local Abbreviation walked r k := (r.1.1 = yajl_gen_status_ok ∧ r.2 = k).

Lemma call_frames_accepted frames c (gen : G) :
  walked (call_frames frames c gen) frames.
Proof. split; [apply accepts | done]. Qed.

Lemma and_then_frames_accepted (r : yajl_gen_status * G * nat) rest n k p :
  walked r n → (∀ gen, walked (rest gen) k) → p = (n `max` k)%nat →
  walked (and_then_frames r rest) p.
Proof.
  intros [Hr <-] Hrest ->. unfold and_then_frames.
  rewrite decide_True by done. simpl. by destruct (Hrest r.1.2) as [-> ->].
Qed.

Lemma generate_json_frames_accepted d :
  ∀ frames (gen : G),
    walked (generate_json_frames frames gen d) (frames + nesting d)%nat.
Proof.
  induction d as [| b | i | r | s | m IH | a IH] using json_data_nested_ind;
    intros frames gen; simpl;
    try (rewrite Nat.add_0_r; apply call_frames_accepted).
  - assert (Hfold : ∀ gen0,
      walked
        (map_fold (λ key item r,
           and_then_frames r (λ gen1,
           and_then_frames (call_frames frames (yajl_gen_string key) gen1)
             (λ gen2, generate_json_frames (S frames) gen2 item)))
           (yajl_gen_status_ok, gen0, frames) m)
        (frames + map_fold (λ _ item n, S (nesting item) `max` n) O m)%nat).
    { intros gen0. rewrite !map_fold_foldr.
      apply map_Forall_to_list in IH.
      induction IH as [|[key item] l Hitem _ IHl]; simpl in *.
      { split; [done | lia]. }
      eapply and_then_frames_accepted; [exact IHl | intros gen1 | ].
      - eapply and_then_frames_accepted;
          [apply call_frames_accepted | intros gen2; apply Hitem | done].
      - lia. }
    eapply and_then_frames_accepted;
      [apply call_frames_accepted | intros gen0 | ].
    + eapply and_then_frames_accepted;
        [apply Hfold | intros gen1; apply call_frames_accepted | done].
    + lia.
  - assert (Hfold : ∀ acc n,
      walked acc n → (frames ≤ n)%nat →
      walked
        (foldl (λ r item,
           and_then_frames r (λ gen1,
             generate_json_frames (S frames) gen1 item)) acc a)
        (n `max` (frames + foldr (λ item n, S (nesting item) `max` n) O a))%nat).
    { induction IH as [|item l Hitem _ IHl]; intros acc n Hacc Hn; simpl.
      { destruct Hacc as [-> ->]. split; [done | lia]. }
      destruct (IHl (and_then_frames acc (λ gen1,
                  generate_json_frames (S frames) gen1 item))
                  (n `max` (S frames + nesting item))%nat) as [-> ->].
      - eapply and_then_frames_accepted;
          [exact Hacc | intros gen1; apply Hitem | done].
      - lia.
      - split; [done | lia]. }
    eapply and_then_frames_accepted;
      [apply call_frames_accepted | intros gen0 | ].
    + eapply and_then_frames_accepted;
        [apply (Hfold _ frames); [done | lia]
        | intros gen1; apply call_frames_accepted
        | done].
    + lia.
Qed.
End accepting.
End walk.

(** ** The calls of the walk, with the recording generator *)

Lemma and_then_ok {G} (gen : G) rest :
  and_then (yajl_gen_status_ok, gen) rest = rest gen.
Proof. done. Qed.

Lemma generate_json_recording_array a :
  Forall (λ d, ∀ calls : list gen_call,
            generate_json calls d = (yajl_gen_status_ok, calls ++ rendering d)) a →
  ∀ calls : list gen_call,
    generate_json calls (data_array a) =
    (yajl_gen_status_ok,
     calls ++ yajl_gen_array_open :: concat (rendering <$> a) ++ [yajl_gen_array_close]).
Proof.
  intros IH calls. simpl. unfold yajl_gen_call at 1, recording_gen at 1.
  rewrite and_then_ok.
  assert (Hfold : ∀ gen : list gen_call,
    foldl (λ r item, and_then r (λ gen1, generate_json gen1 item))
      (yajl_gen_status_ok, gen) a =
    (yajl_gen_status_ok, gen ++ concat (rendering <$> a))).
  { induction IH as [|item l Hitem _ IHl]; intros gen; simpl.
    { by rewrite app_nil_r. }
    rewrite and_then_ok, Hitem, IHl. by rewrite <- app_assoc. }
  rewrite Hfold, and_then_ok. unfold yajl_gen_call, recording_gen.
  by rewrite <- !app_assoc.
Qed.

Lemma generate_json_recording_map m :
  map_Forall (λ _ d, ∀ calls : list gen_call,
            generate_json calls d = (yajl_gen_status_ok, calls ++ rendering d)) m →
  ∀ calls : list gen_call,
    generate_json calls (data_map m) =
    (yajl_gen_status_ok,
     calls ++ yajl_gen_map_open ::
       foldr (λ '(key, item) done, done ++ yajl_gen_string key :: rendering item)
         [] (map_to_list m) ++ [yajl_gen_map_close]).
Proof.
  intros IH calls. simpl. unfold yajl_gen_call at 1, recording_gen at 1.
  rewrite and_then_ok.
  assert (Hfold : ∀ gen : list gen_call,
    map_fold (λ key item r,
        and_then r (λ gen1,
        and_then (yajl_gen_call (yajl_gen_string key) gen1) (λ gen2,
        generate_json gen2 item)))
      (yajl_gen_status_ok, gen) m =
    (yajl_gen_status_ok,
     gen ++ foldr (λ '(key, item) done, done ++ yajl_gen_string key :: rendering item)
              [] (map_to_list m))).
  { intros gen. rewrite map_fold_foldr. apply map_Forall_to_list in IH.
    induction IH as [|[key item] l Hitem _ IHl]; simpl in *.
    { by rewrite app_nil_r. }
    rewrite IHl, and_then_ok. unfold yajl_gen_call at 1, recording_gen at 1.
    rewrite and_then_ok, Hitem. by rewrite <- !app_assoc. }
  rewrite Hfold, and_then_ok. unfold yajl_gen_call, recording_gen.
  by rewrite <- !app_assoc.
Qed.

(** The recording generator receives the calls of [rendering], after the
    calls it had received before. *)
Lemma generate_json_recording d :
  ∀ calls : list gen_call,
    generate_json calls d = (yajl_gen_status_ok, calls ++ rendering d).
Proof.
  induction d as [| b | i | r | s | m IH | a IH] using json_data_nested_ind;
    intros calls; try done.
  - unfold rendering. by rewrite !generate_json_recording_map.
  - unfold rendering. by rewrite !generate_json_recording_array.
Qed.

Lemma rendering_array a :
  rendering (data_array a) =
  yajl_gen_array_open :: concat (rendering <$> a) ++ [yajl_gen_array_close].
Proof.
  unfold rendering at 1. rewrite generate_json_recording_array; [done|].
  apply Forall_forall. intros d _. apply generate_json_recording.
Qed.

Lemma recording_gen_accepts c (calls : list gen_call) :
  (yajl_gen_call c calls).1 = yajl_gen_status_ok.
Proof. done. Qed.

Lemma nesting_nested_array n : nesting (nested_array n) = n.
Proof. induction n as [|n IH]; simpl; [done|]. rewrite IH. lia. Qed.

(** ** The builder, case by case *)

(** Writing back what is already there changes nothing. *)
Lemma store_deref_id d h x : deref d h = Some x → store d h x = d.
Proof.
  revert d. induction h as [|[k|i] h IH]; intros d Hx; simpl in *.
  - by simplify_eq.
  - destruct d as [| | | | | m | a]; try done.
    destruct (m !! k) as [d'|] eqn:Hk; simpl in *; [|done].
    f_equal. apply map_eq. intros k'. rewrite lookup_alter.
    case_decide; simplify_eq; [|done]. rewrite Hk. simpl. by rewrite IH.
  - destruct d as [| | | | | m | a]; try done.
    destruct (a !! i) as [d'|] eqn:Hi; simpl in *; [|done].
    f_equal. apply list_eq. intros i'.
    destruct (decide (i = i')) as [<-|Hne].
    + rewrite list_lookup_alter_eq, Hi. simpl. by rewrite IH.
    + by rewrite list_lookup_alter_ne.
Qed.

(** A value event while an array is on top of the stack: the value goes to
    the back of the array. *)
Lemma reader_cb_array e v st r cur s a :
  event_value e = Some v → root st = Some r → stack st = cur :: s →
  deref r cur = Some (data_array a) →
  ∃ st', reader_cb e st = Some (1, st') ∧ tempKey st' = tempKey st ∧
         root st' = Some (store r cur (data_array (a ++ [v]))).
Proof.
  intros He Hr Hs Hd.
  destruct e; simplify_eq/=; unfold_callbacks; unfold insert;
    rewrite Hr, Hs, Hd; simpl; eauto.
Qed.

(** A value event while a map is on top of the stack: the value is
    emplaced under [tempKey]. *)
Lemma reader_cb_map e v st r cur s m :
  event_value e = Some v → root st = Some r → stack st = cur :: s →
  deref r cur = Some (data_map m) →
  ∃ st', reader_cb e st = Some (1, st') ∧ tempKey st' = tempKey st ∧
         root st' = Some (store r cur (data_map (emplace (tempKey st) v m))).
Proof.
  intros He Hr Hs Hd.
  destruct e; simplify_eq/=; unfold_callbacks; unfold insert;
    rewrite Hr, Hs, Hd; simpl; eauto.
Qed.

(** [insert] under a key the map already has: nothing is stored, and the
    pointer returned is the one to the member that was there. *)
Lemma insert_duplicate_key v st r cur s m old :
  root st = Some r → stack st = cur :: s →
  deref r cur = Some (data_map m) → m !! tempKey st = Some old →
  insert v st = Some (Some (cur ++ [in_map (tempKey st)]), st) ∧
  deref r (cur ++ [in_map (tempKey st)]) = Some old.
Proof.
  intros Hr Hs Hd Hk. split.
  - unfold insert, emplace. rewrite Hr, Hs, Hd, Hk.
    rewrite store_deref_id by done. destruct st; simpl in *. by subst.
  - rewrite deref_app, Hd. simpl. by rewrite Hk.
Qed.

(** A start callback whose [insert] meets no duplicate key pushes a
    pointer to the empty container it has just stored. *)
Lemma start_container_new t st :
  no_duplicate_key st →
  ∀ st', start_container t st = Some (1, st') →
  ∃ h r', stack st' = h :: stack st ∧ root st' = Some r' ∧
          deref r' h = Some (json_data_of_type t).
Proof.
  intros Hnew st'. unfold start_container.
  destruct (insert _ st) as [[[h|] st1]|] eqn:Hins; simpl; [|done..].
  intros [= <-]. exists h. simpl.
  rewrite (insert_stack _ _ _ _ Hins).
  insert_cases Hins.
  - eexists. split_and!; [done..|].
    rewrite deref_app, deref_store_eq by eauto. simpl.
    unfold emplace.
    match goal with
    | Hd : deref _ _ = Some (data_map _) |- _ =>
        rewrite (Hnew _ _ _ _ ltac:(eassumption) ltac:(eassumption) Hd)
    end.
    by rewrite lookup_insert_eq.
  - eexists. split_and!; [done..|].
    rewrite deref_app, deref_store_eq by eauto. simpl.
    by rewrite list_lookup_middle.
  - eauto.
Qed.

(** Only [insert] makes a callback return 0. *)
Lemma reader_cb_cancel e st st' :
  reader_cb e st = Some (0, st') → is_Some (event_value e) ∧ st' = st.
Proof.
  intros H. apply reader_cb_inv in H. destruct (event_value e) as [v|].
  - destruct H as ([h|] & st1 & Hins & ? & ? & ? & Hstack); [done|].
    apply insert_nullptr in Hins as ->. split; [done|].
    destruct Hstack as [?|(? & ? & _)]; [|done].
    destruct st, st'; simpl in *; by subst.
  - by destruct H as [? _].
Qed.

(** The builder has a defined behaviour on every sequence of events, but
    for an end event that meets an empty stack. *)
Lemma deliver_stack_valid_initial es ret st :
  deliver es initial_state = Some (ret, st) → stack_valid st.
Proof. apply deliver_stack_valid, stack_valid_initial. Qed.

(** But for duplicate keys, the pointers on the stack point at containers
    all along. *)
Lemma reader_cb_points_at_containers e st ret st' :
  points_at_containers st →
  (e = ev_start_map ∨ e = ev_start_array → no_duplicate_key st) →
  reader_cb e st = Some (ret, st') → points_at_containers st'.
Proof.
  intros Hst Hnew Hcb.
  assert (Hold : ∀ h, h ∈ stack st →
    ∃ r x, root st' = Some r ∧ deref r h = Some x ∧
           (type x = json_type_map ∨ type x = json_type_array)).
  { intros h Hh. destruct (Hst h Hh) as (r & x & Hr & Hx & Hc).
    pose proof (reader_cb_root_step _ _ _ _ Hcb) as Hstep. rewrite Hr in Hstep.
    destruct (root_step_preserved _ _ Hstep) as (r' & Hr' & Hp).
    destruct (Hp _ _ Hx) as (x' & Hx' & Hsame).
    apply same_node_type in Hsame. exists r', x'. by rewrite Hsame. }
  pose proof (reader_cb_inv _ _ _ _ Hcb) as H.
  destruct (event_value e) as [v|].
  - destruct H as (p & st1 & Hins & Hret & _ & Hroot & Hstack).
    pose proof (insert_stack _ _ _ _ Hins) as Hs1.
    intros h Hh. destruct Hstack as [Hstack|(h' & -> & Hstart & Hstack)];
      rewrite Hstack, ?Hs1 in Hh; [by apply Hold|].
    apply elem_of_cons in Hh as [->|Hh]; [|by apply Hold].
    pose proof (Hnew Hstart) as Hnd. simpl in Hret. subst ret.
    assert (∃ t, (t = json_type_map ∨ t = json_type_array) ∧
                 start_container t st = Some (1, st')) as (t & Ht & Hsc).
    { destruct Hstart as [-> | ->]; eexists; (split; [|exact Hcb]); auto. }
    destruct (start_container_new t st Hnd st' Hsc)
      as (h0 & r' & Hs' & Hr' & Hh0).
    rewrite Hs1 in Hstack. rewrite Hstack in Hs'. simplify_eq.
    exists r', (json_data_of_type t). split_and!; [done..|].
    by destruct Ht as [-> | ->]; [left | right].
  - destruct H as (_ & _ & _ & [Hstack|(top & Hstack)]);
      intros h Hh; apply Hold.
    + by rewrite <- Hstack.
    + rewrite Hstack. by apply elem_of_cons; right.
Qed.

(** What else duplicate keys do: two arrays under one key are merged into
    the first, and a text in which an array follows a scalar under the
    same key is refused at the first element of the array. *)
Lemma duplicate_key_arrays_merged :
  deliver [ev_start_map; ev_map_key "k"; ev_start_array; ev_integer 1;
           ev_end_array; ev_map_key "k"; ev_start_array; ev_integer 2;
           ev_end_array; ev_end_map] initial_state =
  Some (1, {| stack := []; tempKey := "k";
              root := Some (data_map
                        {[ "k" := data_array [data_integer 1; data_integer 2] ]}) |}).
Proof. vm_compute. reflexivity. Qed.

Lemma duplicate_key_array_after_scalar_refused :
  deliver [ev_start_map; ev_map_key "k"; ev_integer 1; ev_map_key "k";
           ev_start_array; ev_integer 2; ev_end_array; ev_end_map]
    initial_state =
  Some (0, {| stack := [[in_map "k"]; []]; tempKey := "k";
              root := Some (data_map {[ "k" := data_integer 1 ]}) |}).
Proof. vm_compute. reflexivity. Qed.

(** * The statements of the specification *)

(** ** Duplicate keys *)

(** C1.  On the events of the text [{"k":1,"k":2}] the builder succeeds
    and the map it has built has the one member [k], whose value is the
    integer 1: the second value is dropped, the first one stays. *)
Theorem duplicate_key_keeps_first_value :
  deliver [ev_start_map; ev_map_key "k"; ev_integer 1;
           ev_map_key "k"; ev_integer 2; ev_end_map] initial_state =
  Some (1, {| stack := []; tempKey := "k";
              root := Some (data_map {[ "k" := data_integer 1 ]}) |}).
Proof. vm_compute. reflexivity. Qed.

(** C8.  After the events of [{"k":1,"k":] the start array callback stores
    no array: the tree is unchanged, and the pointer it pushes is the one
    to the member that was there, the integer 1. *)
Theorem start_array_on_duplicate_key_pushes_old_member :
  ∃ st,
    deliver [ev_start_map; ev_map_key "k"; ev_integer 1; ev_map_key "k"]
      initial_state = Some (1, st) ∧
    root st = Some (data_map {[ "k" := data_integer 1 ]}) ∧
    reader_cb ev_start_array st =
      Some (1, set_stack ([in_map "k"] :: stack st) st) ∧
    deref (data_map {[ "k" := data_integer 1 ]}) [in_map "k"] =
      Some (data_integer 1).
Proof.
  eexists. split; [vm_compute; reflexivity|].
  split_and!; vm_compute; reflexivity.
Qed.

(** C10.  The events of [{"k":1,"k":[] lead the builder to a state whose
    stack holds a pointer to the integer 1, a scalar; the dispatch of
    [insert] on it finds no container, and the next value is refused. *)
Theorem stack_can_hold_pointer_to_scalar :
  ∃ st h r,
    deliver [ev_start_map; ev_map_key "k"; ev_integer 1;
             ev_map_key "k"; ev_start_array] initial_state = Some (1, st) ∧
    stack st = h :: [[]] ∧ root st = Some r ∧
    deref r h = Some (data_integer 1) ∧
    reader_cb (ev_integer 2) st = Some (0, st).
Proof.
  eexists _, _, _. split; [vm_compute; reflexivity|].
  split_and!; vm_compute; reflexivity.
Qed.

(** ** End events *)

(** C2, as the code has it.  An end callback checks nothing: where the
    stack is not empty it pops the top, whatever that points at and
    whichever of the two end events arrived, and returns 1. *)
Theorem end_event_pops_unchecked e st top rest :
  e = ev_end_map ∨ e = ev_end_array →
  stack st = top :: rest →
  reader_cb e st = Some (1, set_stack rest st).
Proof. intros [-> | ->] Hs; simpl; unfold_callbacks; by rewrite Hs. Qed.

Lemma end_event_pops_unchecked_witness :
  (ev_end_map = ev_end_map ∨ ev_end_map = ev_end_array) ∧
  reader_cb ev_end_map
    {| stack := [[]]; tempKey := ""; root := Some (data_array []) |} =
  Some (1, {| stack := []; tempKey := ""; root := Some (data_array []) |}).
Proof.
  split; [by left|].
  apply (end_event_pops_unchecked ev_end_map
           {| stack := [[]]; tempKey := ""; root := Some (data_array []) |}
           [] []); [by left | reflexivity].
Defined.

(** C2 fails: an end map event that meets an open array is accepted, the
    build goes on and ends well; and a lone end array event pops an empty
    stack, which is no reported failure. *)
Lemma end_event_of_other_kind_accepted :
  deliver [ev_start_array; ev_end_map] initial_state =
    Some (1, {| stack := []; tempKey := ""; root := Some (data_array []) |}) ∧
  deliver [ev_end_array] initial_state = None.
Proof. split; vm_compute; reflexivity. Qed.

(** ** Keys *)

(** C3, as the code has it.  A value event that meets a map on top of the
    stack is accepted whether a key event came before it or not: the
    value is emplaced under what [tempKey] holds, and the callback
    returns 1. *)
Theorem value_in_map_goes_under_tempKey e v st r cur s m :
  event_value e = Some v → root st = Some r → stack st = cur :: s →
  deref r cur = Some (data_map m) →
  ∃ st' r', reader_cb e st = Some (1, st') ∧ root st' = Some r' ∧
    deref r' cur = Some (data_map (emplace (tempKey st) v m)).
Proof.
  intros He Hr Hs Hd.
  destruct (reader_cb_map _ _ _ _ _ _ _ He Hr Hs Hd) as (st' & Hcb & _ & Hr').
  eexists _, _. split_and!; [done..|]. apply deref_store_eq. eauto.
Qed.

Lemma value_in_map_goes_under_tempKey_witness :
  ∃ st' r',
    reader_cb (ev_integer 1)
      {| stack := [[]]; tempKey := ""; root := Some (data_map ∅) |} =
      Some (1, st') ∧
    root st' = Some r' ∧
    deref r' [] = Some (data_map (emplace "" (data_integer 1) ∅)).
Proof.
  apply (value_in_map_goes_under_tempKey (ev_integer 1) (data_integer 1)
           {| stack := [[]]; tempKey := ""; root := Some (data_map ∅) |}
           (data_map ∅) [] [] ∅); reflexivity.
Defined.

(** C3 fails: a map has been opened and no key event has arrived; the
    integer is stored all the same, under the empty key. *)
Lemma value_without_key_accepted :
  deliver [ev_start_map; ev_integer 1] initial_state =
  Some (1, {| stack := [[]]; tempKey := "";
              root := Some (data_map {[ "" := data_integer 1 ]}) |}).
Proof. vm_compute. reflexivity. Qed.

(** C4, as the code has it.  The map key callback looks at neither the
    stack nor the tree: in every state it stores the key in [tempKey],
    over the key that was there, and returns 1. *)
Theorem map_key_accepted_everywhere key st :
  reader_cb (ev_map_key key) st = Some (1, set_tempKey key st).
Proof. reflexivity. Qed.

(** C4 fails: a key event is accepted on an empty stack, and again when
    the top of the stack is an array. *)
Lemma map_key_accepted_outside_map :
  reader_cb (ev_map_key "k") initial_state =
    Some (1, {| stack := []; tempKey := "k"; root := None |}) ∧
  deliver [ev_start_array; ev_map_key "k"] initial_state =
    Some (1, {| stack := [[]]; tempKey := "k"; root := Some (data_array []) |}).
Proof. split; vm_compute; reflexivity. Qed.

(** C5, as the code has it.  Nothing clears [tempKey]: after a sequence of
    events, whatever was inserted meanwhile, it holds the key of the last
    key event, or what it held before when there was none. *)
Theorem tempKey_holds_last_key es st st' :
  deliver es st = Some (1, st') → tempKey st' = last_key es (tempKey st).
Proof.
  unfold last_key. revert st. induction es as [|e es IH]; intros st; simpl.
  - by intros [= <-].
  - destruct (reader_cb e st) as [[c st1]|] eqn:Hcb; simpl; [|done].
    case_decide; [done|]. intros Hes.
    rewrite (IH _ Hes). by rewrite (reader_cb_tempKey _ _ _ _ Hcb).
Qed.

Lemma tempKey_holds_last_key_witness :
  tempKey {| stack := [[]]; tempKey := "k";
             root := Some (data_map {[ "k" := data_integer 1 ]}) |} =
  last_key [ev_start_map; ev_map_key "k"; ev_integer 1] (tempKey initial_state).
Proof.
  apply (tempKey_holds_last_key
           [ev_start_map; ev_map_key "k"; ev_integer 1] initial_state).
  vm_compute. reflexivity.
Defined.

(** C5 fails: the key [k], used once to store the inner map, is still in
    [tempKey] afterwards and is used again for the integer that follows. *)
Lemma key_used_twice :
  deliver [ev_start_map; ev_map_key "k"; ev_start_map; ev_integer 7]
    initial_state =
  Some (1, {| stack := [[in_map "k"]; []]; tempKey := "k";
              root := Some (data_map
                        {[ "k" := data_map {[ "k" := data_integer 7 ]} ]}) |}).
Proof. vm_compute. reflexivity. Qed.

(** ** The root *)

(** C6.  Once the root is set and the stack is empty again, every further
    value event, scalar or start of a container, is refused: the callback
    returns 0 and the state is as it was, nothing built, nothing stored;
    the build is aborted there, whatever events follow. *)
Theorem second_top_level_value_refused e v st r :
  event_value e = Some v → root st = Some r → stack st = [] →
  reader_cb e st = Some (0, st) ∧
  ∀ es, deliver (e :: es) st = Some (0, st).
Proof.
  intros He Hr Hs.
  assert (reader_cb e st = Some (0, st)) as Hcb.
  { destruct e; simplify_eq/=; unfold_callbacks; unfold insert;
      by rewrite Hr, Hs. }
  split; [done|]. intros es. simpl. by rewrite Hcb.
Qed.

Lemma second_top_level_value_refused_witness :
  reader_cb (ev_integer 2)
    {| stack := []; tempKey := ""; root := Some (data_integer 1) |} =
  Some (0, {| stack := []; tempKey := ""; root := Some (data_integer 1) |}) ∧
  ∀ es, deliver (ev_integer 2 :: es)
    {| stack := []; tempKey := ""; root := Some (data_integer 1) |} =
  Some (0, {| stack := []; tempKey := ""; root := Some (data_integer 1) |}).
Proof.
  apply (second_top_level_value_refused (ev_integer 2) (data_integer 2)
           {| stack := []; tempKey := ""; root := Some (data_integer 1) |}
           (data_integer 1)); reflexivity.
Defined.

(** ** The walk *)



(** * More of the program *)

(** ** Building a value from its events *)

Lemma store_app d h1 h2 d1 v :
  deref d h1 = Some d1 → store d (h1 ++ h2) v = store d h1 (store d1 h2 v).
Proof.
  revert d. induction h1 as [|[k|i] h1 IH]; intros d Hd; simpl in *.
  - by simplify_eq.
  - destruct d as [| | | | | m | a]; try done.
    destruct (m !! k) as [d'|] eqn:Hk; simpl in *; [|done].
    f_equal. apply map_eq. intros k'. rewrite !lookup_alter.
    case_decide; [|done]. subst. rewrite Hk. simpl. by rewrite IH.
  - destruct d as [| | | | | m | a]; try done.
    destruct (a !! i) as [d'|] eqn:Hi; simpl in *; [|done].
    f_equal. apply list_eq. intros i'.
    destruct (decide (i = i')) as [<-|Hne].
    + rewrite !list_lookup_alter_eq, Hi. simpl. by rewrite IH.
    + by rewrite !list_lookup_alter_ne.
Qed.

Lemma store_store d h v1 v2 : store (store d h v1) h v2 = store d h v2.
Proof.
  revert d. induction h as [|[k|i] h IH]; intros d; simpl; [done| |].
  - destruct d as [| | | | | m | a]; try done.
    f_equal. apply map_eq. intros k'.
    destruct (decide (k = k')) as [<-|Hne].
    + rewrite !lookup_alter_eq.
      destruct (m !! k); simpl; [by rewrite IH | done].
    + by rewrite !lookup_alter_ne.
  - destruct d as [| | | | | m | a]; try done.
    f_equal. apply list_eq. intros i'.
    destruct (decide (i = i')) as [<-|Hne].
    + rewrite !list_lookup_alter_eq.
      destruct (a !! i); simpl; [by rewrite IH | done].
    + by rewrite !list_lookup_alter_ne.
Qed.

Lemma bool_of_int_of_bool b : bool_of_int (int_of_bool b) = b.
Proof. by destruct b. Qed.

Lemma events_of_head d :
  ∃ e es, events_of d = e :: es ∧ event_value e = Some (shell d).
Proof.
  destruct d; simpl; eexists _, _; (split; [done|]); simpl;
    by rewrite ?bool_of_int_of_bool.
Qed.

Lemma alter_snoc {A} (f : A → A) (l : list A) x :
  alter f (length l) (l ++ [x]) = l ++ [f x].
Proof. by rewrite alter_app_r_alt, Nat.sub_diag by lia. Qed.

(** [builds v]: wherever [insert] takes the first event of [v] and stores
    something new for it, the events of [v] put [v] there and leave the
    stack as it was. *)
Local Abbreviation builds v :=
  (∀ st h st1 r1 rest,
     insert (shell v) st = Some (Some h, st1) →
     root st1 = Some r1 → deref r1 h = Some (shell v) →
     ∃ k, deliver (events_of v ++ rest) st =
          deliver rest {| stack := stack st; tempKey := k;
                          root := Some (store r1 h v) |}).

Lemma scalar_built e v :
  shell v = v → events_of v = [e] → event_value e = Some v →
  (∀ st, reader_cb e st = insert_scalar v st) → builds v.
Proof.
  intros Hshell Hev He Hcb st h st1 r1 rest Hins Hr1 Hh.
  rewrite Hshell in Hins, Hh. exists (tempKey st).
  rewrite Hev. simpl. rewrite Hcb. unfold insert_scalar. rewrite Hins. simpl.
  rewrite (store_deref_id _ _ _ Hh).
  pose proof (insert_stack _ _ _ _ Hins). pose proof (insert_tempKey _ _ _ _ Hins).
  destruct st1; simpl in *. by subst.
Qed.

Lemma array_elements_built h l :
  Forall (λ v, builds v) l →
  ∀ done r k s rest,
    deref r h = Some (data_array done) →
    ∃ k', deliver (concat (events_of <$> l) ++ rest)
            {| stack := h :: s; tempKey := k; root := Some r |} =
          deliver rest {| stack := h :: s; tempKey := k';
                          root := Some (store r h (data_array (done ++ l))) |}.
Proof.
  induction 1 as [|x l Hx _ IHl]; intros done r k s rest Hd; simpl.
  { exists k. by rewrite app_nil_r, (store_deref_id _ _ _ Hd). }
  rewrite <- app_assoc.
  edestruct (Hx {| stack := h :: s; tempKey := k; root := Some r |}
               (h ++ [in_array (length done)])) as (k1 & ->).
  { unfold insert. simpl. rewrite Hd. reflexivity. }
  { reflexivity. }
  { rewrite deref_app, deref_store_eq by eauto. simpl.
    by rewrite list_lookup_middle. }
  simpl.
  rewrite (store_app _ h _ (data_array (done ++ [shell x])))
    by (apply deref_store_eq; eauto).
  rewrite store_store. simpl. rewrite alter_snoc. simpl.
  destruct (IHl (done ++ [x]) (store r h (data_array (done ++ [x]))) k1 s rest)
    as (k' & Hk').
  { apply deref_store_eq. eauto. }
  exists k'. etransitivity; [exact Hk'|]. by rewrite store_store, <- app_assoc.
Qed.

Lemma map_members_built h (m : gmap string json_data) :
  map_Forall (λ _ v, builds v) m →
  ∀ r k s rest,
    deref r h = Some (data_map ∅) →
    ∃ k', deliver
            (map_fold (λ key item done,
                 done ++ ev_map_key key :: events_of item) [] m ++ rest)
            {| stack := h :: s; tempKey := k; root := Some r |} =
          deliver rest {| stack := h :: s; tempKey := k';
                          root := Some (store r h (data_map m)) |}.
Proof.
  induction m as [|i x m Hi Hfirst IHm] using map_first_key_ind;
    intros Hall r k s rest Hd.
  { exists k. by rewrite map_fold_empty, (store_deref_id _ _ _ Hd). }
  apply map_Forall_insert in Hall as [Hx Hm]; [|done].
  rewrite map_fold_insert_first_key by done.
  rewrite <- app_assoc. simpl.
  destruct (IHm Hm r k s (ev_map_key i :: events_of x ++ rest) Hd) as (k1 & ->).
  simpl.
  assert (deref (store r h (data_map m)) h = Some (data_map m)) as Hd'.
  { apply deref_store_eq. eauto. }
  edestruct (Hx {| stack := h :: s; tempKey := i;
                   root := Some (store r h (data_map m)) |}
               (h ++ [in_map i])) as (k' & ->).
  { unfold insert, emplace. simpl. rewrite Hd', Hi. reflexivity. }
  { reflexivity. }
  { rewrite deref_app, deref_store_eq by eauto. simpl.
    by rewrite lookup_insert_eq. }
  exists k'. simpl.
  rewrite (store_app _ h _ (data_map (<[i:=shell x]> m)))
    by (apply deref_store_eq; eauto).
  rewrite !store_store. simpl. by rewrite alter_insert_eq.
Qed.

Lemma value_built v : builds v.
Proof.
  induction v as [| b | i | r | s | m IH | a IH] using json_data_nested_ind.
  - by apply (scalar_built ev_null).
  - apply (scalar_built (ev_boolean (int_of_bool b))); try done.
    simpl. by rewrite bool_of_int_of_bool.
    intros st. simpl. unfold read_boolean. by rewrite bool_of_int_of_bool.
  - by apply (scalar_built (ev_integer i)).
  - by apply (scalar_built (ev_double r)).
  - by apply (scalar_built (ev_string s)).
  - intros st h st1 r1 rest Hins Hr1 Hh. simpl in *.
    unfold start_map, start_container. simpl. rewrite Hins. simpl.
    pose proof (insert_stack _ _ _ _ Hins) as Hs1.
    rewrite <- app_assoc.
    destruct (map_members_built h m IH r1 (tempKey st1) (stack st)
                ([ev_end_map] ++ rest) Hh) as (k' & Hk').
    exists k'. destruct st1 as [s1 k1 o1]. simpl in *. subst.
    unfold set_stack. simpl. by rewrite Hk'.
  - intros st h st1 r1 rest Hins Hr1 Hh. simpl in *.
    unfold start_array, start_container. simpl. rewrite Hins. simpl.
    pose proof (insert_stack _ _ _ _ Hins) as Hs1.
    rewrite <- app_assoc.
    destruct (array_elements_built h a IH [] r1 (tempKey st1) (stack st)
                ([ev_end_array] ++ rest) Hh) as (k' & Hk').
    exists k'. destruct st1 as [s1 k1 o1]. simpl in *. subst.
    unfold set_stack. simpl. by rewrite Hk'.
Qed.

(** X1.  The events of a value, delivered to the initial state, build that
    value: every callback returns 1, the root is the value and the stack
    is empty again. *)
Theorem events_of_value_build_it v :
  ∃ k, deliver (events_of v) initial_state =
       Some (1, {| stack := []; tempKey := k; root := Some v |}).
Proof.
  destruct (value_built v initial_state [] (set_root (Some (shell v)) initial_state)
              (shell v) []) as (k & Hk); [done..|].
  exists k. by rewrite app_nil_r in Hk.
Qed.

(** X2.  The events of a value, delivered while an array is on top of the
    stack, put the whole value behind the elements of the array and leave
    the stack as it was; the events that follow go on from there. *)
Theorem events_of_value_append_to_array v st r h s a rest :
  root st = Some r → stack st = h :: s →
  deref r h = Some (data_array a) →
  ∃ k, deliver (events_of v ++ rest) st =
       deliver rest {| stack := stack st; tempKey := k;
                       root := Some (store r h (data_array (a ++ [v]))) |}.
Proof.
  intros Hr Hs Hd.
  edestruct (value_built v st (h ++ [in_array (length a)])) as (k & ->).
  { unfold insert. rewrite Hr, Hs, Hd. reflexivity. }
  { reflexivity. }
  { rewrite deref_app, deref_store_eq by eauto. simpl.
    by rewrite list_lookup_middle. }
  exists k.
  rewrite (store_app _ h _ (data_array (a ++ [shell v])))
    by (apply deref_store_eq; eauto).
  rewrite store_store. simpl. by rewrite alter_snoc.
Qed.

Lemma events_of_value_append_to_array_witness :
  ∃ k, deliver (events_of (data_array [data_null]) ++ [ev_end_array])
         {| stack := [[]]; tempKey := "";
            root := Some (data_array [data_integer 1]) |} =
       deliver [ev_end_array]
         {| stack := [[]]; tempKey := k;
            root := Some (store (data_array [data_integer 1]) []
                      (data_array ([data_integer 1] ++ [data_array [data_null]]))) |}.
Proof.
  apply (events_of_value_append_to_array (data_array [data_null])
           {| stack := [[]]; tempKey := "";
              root := Some (data_array [data_integer 1]) |}
           (data_array [data_integer 1]) [] [] [data_integer 1] [ev_end_array]);
    reflexivity.
Defined.

(** X3.  The events of a value, delivered while a map is on top of the
    stack and the key in [tempKey] is not in that map, add the whole value
    to the map under that key and leave the stack as it was. *)
Theorem events_of_value_add_to_map v st r h s m rest :
  root st = Some r → stack st = h :: s →
  deref r h = Some (data_map m) → m !! tempKey st = None →
  ∃ k, deliver (events_of v ++ rest) st =
       deliver rest {| stack := stack st; tempKey := k;
                       root := Some (store r h (data_map (<[tempKey st:=v]> m))) |}.
Proof.
  intros Hr Hs Hd Hk.
  edestruct (value_built v st (h ++ [in_map (tempKey st)])) as (k & ->).
  { unfold insert, emplace. rewrite Hr, Hs, Hd, Hk. reflexivity. }
  { reflexivity. }
  { rewrite deref_app, deref_store_eq by eauto. simpl.
    by rewrite lookup_insert_eq. }
  exists k.
  rewrite (store_app _ h _ (data_map (<[tempKey st:=shell v]> m)))
    by (apply deref_store_eq; eauto).
  rewrite store_store. simpl. by rewrite alter_insert_eq.
Qed.

Lemma events_of_value_add_to_map_witness :
  ∃ k, deliver (events_of (data_array [data_null]) ++ [ev_end_map])
         {| stack := [[]]; tempKey := "a"; root := Some (data_map ∅) |} =
       deliver [ev_end_map]
         {| stack := [[]]; tempKey := k;
            root := Some (store (data_map ∅) []
                      (data_map (<["a":=data_array [data_null]]> ∅))) |}.
Proof.
  apply (events_of_value_add_to_map (data_array [data_null])
           {| stack := [[]]; tempKey := "a"; root := Some (data_map ∅) |}
           (data_map ∅) [] [] ∅ [ev_end_map]); reflexivity.
Defined.

(** ** The walk replays the events *)

Lemma rendering_map m :
  rendering (data_map m) =
  yajl_gen_map_open ::
    foldr (λ '(key, item) done, done ++ yajl_gen_string key :: rendering item)
      [] (map_to_list m) ++ [yajl_gen_map_close].
Proof.
  unfold rendering at 1. rewrite generate_json_recording_map; [done|].
  intros k d _. apply generate_json_recording.
Qed.

(** For the events of [events_of], which take the members of a map in the
    order of the walk, the calls mirror the events one by one. *)
Lemma rendering_events_of v :
  rendering v = event_call <$> events_of v.
Proof.
  induction v as [| b | i | r | s | m IH | a IH] using json_data_nested_ind;
    try done.
  - rewrite rendering_map. csimpl. rewrite map_fold_foldr, fmap_app. csimpl.
    do 2 f_equal. apply map_Forall_to_list in IH.
    induction IH as [|[key item] l Hitem _ IHl]; csimpl in *; [done|].
    rewrite fmap_app, IHl. csimpl. by rewrite Hitem.
  - rewrite rendering_array. csimpl. rewrite fmap_app. csimpl. do 2 f_equal.
    induction IH as [|item l Hitem _ IHl]; csimpl; [done|].
    rewrite fmap_app, <- IHl. by rewrite Hitem.
Qed.

Lemma foldr_snoc_concat {A B C} (f : A → B → list C) (l : list (A * B)) :
  foldr (uncurry (λ x y done, done ++ f x y)) [] l =
  concat ((λ p, f p.1 p.2) <$> reverse l).
Proof.
  induction l as [|[x y] l IH]; csimpl; [done|].
  rewrite IH, reverse_cons, fmap_app, concat_app. csimpl.
  by rewrite app_nil_r.
Qed.

Lemma zip_with_fmap_same {A B C} (g : A → B → C) (h : A → B) (l : list A) :
  zip_with g l (h <$> l) = (λ x, g x (h x)) <$> l.
Proof. induction l as [|x l IH]; csimpl; [done|]. by rewrite IH. Qed.

Lemma events_of_events_for v : events_for v (events_of v).
Proof.
  induction v as [| b | i | r | s | m IH | a IH] using json_data_nested_ind;
    try by constructor.
  - cbn [events_of]. rewrite map_fold_foldr.
    rewrite (foldr_snoc_concat (λ key item, ev_map_key key :: events_of item)).
    rewrite <- (zip_with_fmap_same (λ member es, ev_map_key member.1 :: es)
                  (λ member, events_of member.2)).
    apply events_for_map.
    + apply reverse_Permutation.
    + apply Forall2_fmap_r, Forall_Forall2_diag, Forall_reverse.
      apply map_Forall_to_list in IH.
      eapply Forall_impl; [exact IH|]. by intros [k x].
  - cbn [events_of]. apply events_for_array.
    by apply Forall2_fmap_r, Forall_Forall2_diag.
Qed.

(** X4.  On a generator that accepts every call, [generate_json] makes for
    a value the calls that mirror a sequence of events of that value, one
    call for each event and in the same order: the elements of an array
    from the first to the last, the members of a map each once, in the
    order in which the walk meets them, whichever that is; a key is passed
    as a string, like a string value. *)
Theorem rendering_mirrors_an_event_sequence v :
  ∃ es, events_for v es ∧ rendering v = event_call <$> es.
Proof.
  exists (events_of v). split.
  - apply events_of_events_for.
  - apply rendering_events_of.
Qed.

(** ** What the builder never does *)

Lemma reader_cb_undefined e st :
  stack_valid st → reader_cb e st = None →
  stack st = [] ∧ (e = ev_end_map ∨ e = ev_end_array).
Proof.
  intros Hst Hcb.
  destruct (decide (stack st = [])) as [Hs|Hs].
  - split; [done|].
    destruct (event_value e) eqn:He.
    + destruct (reader_cb_defined e st Hst) as [x Hx]; [by rewrite He|congruence].
    + destruct e; try done; auto.
  - destruct (reader_cb_defined e st Hst) as [x Hx]; [done|congruence].
Qed.

Lemma deliver_undefined es st :
  stack_valid st → deliver es st = None →
  ∃ es1 e es2 st1,
    es = es1 ++ e :: es2 ∧ deliver es1 st = Some (1, st1) ∧
    stack st1 = [] ∧ (e = ev_end_map ∨ e = ev_end_array).
Proof.
  revert st. induction es as [|e es IH]; intros st Hst; simpl; [done|].
  destruct (reader_cb e st) as [[ret st1]|] eqn:Hcb; simpl.
  - case_decide; [done|]. intros Hes.
    destruct (reader_cb_ret _ _ _ _ Hcb) as [->| ->]; [done|].
    destruct (IH st1) as (es1 & e' & es2 & st2 & -> & Hes1 & Hs & He');
      [by eapply reader_cb_stack_valid|done|].
    exists (e :: es1), e', es2, st2. split_and!; [done| |done..].
    simpl. by rewrite Hcb.
  - intros _. destruct (reader_cb_undefined _ _ Hst Hcb) as [Hs He].
    by exists [], e, es, st.
Qed.

(** X5.  Whatever events arrive, the builder never reads through a pointer
    that points at nothing: the one way to leave defined behaviour is an
    end event that meets an empty stack, after events that were all
    accepted. *)
Theorem builder_undefined_only_at_end_on_empty_stack es :
  deliver es initial_state = None →
  ∃ es1 e es2 st1,
    es = es1 ++ e :: es2 ∧ deliver es1 initial_state = Some (1, st1) ∧
    stack st1 = [] ∧ (e = ev_end_map ∨ e = ev_end_array).
Proof. apply deliver_undefined, stack_valid_initial. Qed.

Lemma builder_undefined_only_at_end_on_empty_stack_witness :
  ∃ es1 e es2 st1,
    [ev_null; ev_end_array] = es1 ++ e :: es2 ∧
    deliver es1 initial_state = Some (1, st1) ∧
    stack st1 = [] ∧ (e = ev_end_map ∨ e = ev_end_array).
Proof.
  apply (builder_undefined_only_at_end_on_empty_stack [ev_null; ev_end_array]).
  reflexivity.
Defined.

(** ** The depth of the stack *)

Lemma reader_cb_depth e st st' :
  reader_cb e st = Some (1, st') →
  (length (stack st') + closes e = length (stack st) + opens e)%nat.
Proof.
  destruct e; simpl; unfold_callbacks; intros Hcb;
    try (destruct (insert _ st) as [[[h|] st2]|] eqn:Hins; simplify_eq/=;
         apply insert_stack in Hins; rewrite ?Hins; lia).
  - simplify_eq/=. lia.
  - destruct (stack st); simplify_eq/=; lia.
  - destruct (stack st); simplify_eq/=; lia.
Qed.

(** X6.  After events that were all accepted, as many pointers have been
    added to the stack as containers were opened and not closed. *)
Theorem stack_depth_is_open_containers es st st' :
  deliver es st = Some (1, st') →
  (length (stack st') + sum_list (closes <$> es) =
   length (stack st) + sum_list (opens <$> es))%nat.
Proof.
  revert st. induction es as [|e es IH]; intros st; csimpl.
  - intros [= <-]. lia.
  - destruct (reader_cb e st) as [[ret st1]|] eqn:Hcb; csimpl; [|done].
    case_decide; [done|]. intros Hes.
    destruct (reader_cb_ret _ _ _ _ Hcb) as [->| ->]; [done|].
    apply reader_cb_depth in Hcb. apply IH in Hes. lia.
Qed.

Lemma stack_depth_is_open_containers_witness :
  (length (stack {| stack := [[in_array 0]; []]; tempKey := "";
                    root := Some (data_array [data_array []]) |}) +
   sum_list (closes <$> [ev_start_array; ev_start_array]) =
   length (stack initial_state) +
   sum_list (opens <$> [ev_start_array; ev_start_array]))%nat.
Proof.
  apply (stack_depth_is_open_containers [ev_start_array; ev_start_array]
           initial_state). reflexivity.
Defined.

(** ** Refusals *)

Lemma insert_nullptr_cause v st st' :
  insert v st = Some (None, st') →
  ∃ r, root st = Some r ∧
    (stack st = [] ∨
     ∃ h s x, stack st = h :: s ∧ deref r h = Some x ∧
              type x ≠ json_type_map ∧ type x ≠ json_type_array).
Proof.
  intros H. insert_cases H; eexists; (split; [done|]); auto;
    right; eexists _, _, _; split_and!; done.
Qed.

(** X7.  When a build is refused, the events before the refused one were
    all accepted and the state is the one they left: the refused event is
    a value event, and it finds the root set and either the stack empty or
    the top of the stack pointing at a scalar. *)
Theorem build_refused_only_by_insert es st st' :
  deliver es st = Some (0, st') →
  ∃ es1 e es2 v r,
    es = es1 ++ e :: es2 ∧ deliver es1 st = Some (1, st') ∧
    event_value e = Some v ∧ reader_cb e st' = Some (0, st') ∧
    root st' = Some r ∧
    (stack st' = [] ∨
     ∃ h s x, stack st' = h :: s ∧ deref r h = Some x ∧
              type x ≠ json_type_map ∧ type x ≠ json_type_array).
Proof.
  revert st. induction es as [|e es IH]; intros st; simpl; [done|].
  destruct (reader_cb e st) as [[ret st1]|] eqn:Hcb; simpl; [|done].
  case_decide as Hret.
  - intros [= <-]. subst ret.
    destruct (reader_cb_cancel _ _ _ Hcb) as [[v Hv] ->].
    pose proof (reader_cb_inv _ _ _ _ Hcb) as H. rewrite Hv in H.
    destruct H as ([h|] & st2 & Hins & ? & _); [done|].
    destruct (insert_nullptr_cause _ _ _ Hins) as (r & Hr & Hcause).
    by exists [], e, es, v, r.
  - intros Hes.
    destruct (reader_cb_ret _ _ _ _ Hcb) as [->| ->]; [done|].
    destruct (IH _ Hes) as (es1 & e' & es2 & v & r & -> & Hes1 & ?).
    exists (e :: es1), e', es2, v, r. split_and!; [done| |tauto..].
    simpl. by rewrite Hcb.
Qed.

Lemma build_refused_only_by_insert_witness :
  ∃ es1 e es2 v r,
    [ev_null; ev_null] = es1 ++ e :: es2 ∧
    deliver es1 initial_state =
      Some (1, {| stack := []; tempKey := ""; root := Some data_null |}) ∧
    event_value e = Some v ∧
    reader_cb e {| stack := []; tempKey := ""; root := Some data_null |} =
      Some (0, {| stack := []; tempKey := ""; root := Some data_null |}) ∧
    root {| stack := []; tempKey := ""; root := Some data_null |} = Some r ∧
    (stack {| stack := []; tempKey := ""; root := Some data_null |} = [] ∨
     ∃ h s x, stack {| stack := []; tempKey := ""; root := Some data_null |} =
                h :: s ∧ deref r h = Some x ∧
              type x ≠ json_type_map ∧ type x ≠ json_type_array).
Proof.
  apply (build_refused_only_by_insert [ev_null; ev_null] initial_state).
  reflexivity.
Defined.

(** X8.  No event removes or overwrites a value of the tree: a value that
    is in the tree is still there, at the same place, after any further
    events; a scalar keeps its value and a container its type. *)
Theorem values_stay_in_place es st ret st' r p x :
  deliver es st = Some (ret, st') → root st = Some r →
  deref r p = Some x →
  ∃ r' x', root st' = Some r' ∧ deref r' p = Some x' ∧ same_node x x'.
Proof.
  intros Hes Hr Hx.
  destruct (deliver_preserved _ _ _ _ _ Hes Hr) as (r' & Hr' & Hp).
  destruct (Hp _ _ Hx) as (x' & Hx' & Hsame). eauto.
Qed.

Lemma values_stay_in_place_witness :
  ∃ r' x',
    root {| stack := [[]]; tempKey := "";
            root := Some (data_array [data_integer 1; data_null]) |} = Some r' ∧
    deref r' [in_array 0] = Some x' ∧ same_node (data_integer 1) x'.
Proof.
  apply (values_stay_in_place [ev_null]
           {| stack := [[]]; tempKey := "";
              root := Some (data_array [data_integer 1]) |} 1
           {| stack := [[]]; tempKey := "";
              root := Some (data_array [data_integer 1; data_null]) |}
           (data_array [data_integer 1]) [in_array 0] (data_integer 1));
    reflexivity.
Defined.

(** X9.  A value event that arrives while the key in [tempKey] is already
    in the map on top of the stack is accepted and stores nothing: the tree
    and the key are as they were. *)
Theorem value_under_present_key_is_dropped e v st r h s m old :
  event_value e = Some v → root st = Some r → stack st = h :: s →
  deref r h = Some (data_map m) → m !! tempKey st = Some old →
  ∃ st', reader_cb e st = Some (1, st') ∧
         root st' = root st ∧ tempKey st' = tempKey st.
Proof.
  intros He Hr Hs Hd Hk.
  destruct (insert_duplicate_key v st r h s m old Hr Hs Hd Hk) as [Hins _].
  destruct e; simplify_eq/=; unfold_callbacks; simpl; rewrite Hins; simpl;
    eauto.
Qed.

Lemma value_under_present_key_is_dropped_witness :
  ∃ st',
    reader_cb (ev_integer 2)
      {| stack := [[]]; tempKey := "k";
         root := Some (data_map {[ "k" := data_integer 1 ]}) |} =
      Some (1, st') ∧
    root st' = Some (data_map {[ "k" := data_integer 1 ]}) ∧
    tempKey st' = "k".
Proof.
  apply (value_under_present_key_is_dropped (ev_integer 2) (data_integer 2)
           {| stack := [[]]; tempKey := "k";
              root := Some (data_map {[ "k" := data_integer 1 ]}) |}
           (data_map {[ "k" := data_integer 1 ]}) [] []
           {[ "k" := data_integer 1 ]} (data_integer 1));
    reflexivity.
Defined.

(** ** The shape of the stack *)

Lemma insert_root_is_Some v st p st' :
  insert v st = Some (p, st') → is_Some (root st').
Proof. intros H. insert_cases H; eauto. Qed.

Lemma insert_pointer_shape v st h st' :
  insert v st = Some (Some h, st') →
  (root st = None ∧ h = []) ∨
  (∃ cur s m, stack st = cur :: s ∧ h = cur ++ [m]).
Proof. intros H. insert_cases H; eauto 10. Qed.

Lemma nested_path_tail h s : nested_path (h :: s) → nested_path s.
Proof. destruct s; simpl; [done|]. by intros [_ ?]. Qed.

Lemma reader_cb_nested_path e st ret st' :
  reader_cb e st = Some (ret, st') →
  nested_path (stack st) ∧ (root st = None → stack st = []) →
  nested_path (stack st') ∧ (root st' = None → stack st' = []).
Proof.
  intros Hcb [Hpath Hroot]. apply reader_cb_inv in Hcb.
  destruct (event_value e) as [v|].
  - destruct Hcb as (p & st1 & Hins & _ & _ & Hr' & Hstack).
    pose proof (insert_stack _ _ _ _ Hins) as Hs1.
    destruct (insert_root_is_Some _ _ _ _ Hins) as [r1 Hr1].
    split; [|by rewrite Hr', Hr1].
    destruct Hstack as [->|(h & -> & _ & ->)]; rewrite Hs1; [done|].
    destruct (insert_pointer_shape _ _ _ _ Hins)
      as [[Hnone ->]|(cur & s & m & Hs & ->)].
    + by rewrite (Hroot Hnone).
    + rewrite Hs in *. simpl. eauto.
  - destruct Hcb as (_ & Hr' & _ & [Hstack|(top & Hstack)]).
    + by rewrite Hstack, Hr'.
    + rewrite Hstack in Hpath, Hroot. rewrite Hr'. split.
      * by eapply nested_path_tail.
      * intros Hnone. by specialize (Hroot Hnone).
Qed.

(** X10.  In every state the builder reaches, the stack is the way from
    the root to the innermost open container: the pointer at the bottom is
    the one to the root, every pointer above it is to a member or an
    element of the container pointed at just below; and as long as no
    root is set, the stack is empty. *)
Theorem stack_is_path_from_root es ret st :
  deliver es initial_state = Some (ret, st) →
  nested_path (stack st) ∧ (root st = None → stack st = []).
Proof.
  assert (∀ st0, nested_path (stack st0) ∧ (root st0 = None → stack st0 = []) →
    deliver es st0 = Some (ret, st) →
    nested_path (stack st) ∧ (root st = None → stack st = [])) as Hgen.
  { induction es as [|e es IH]; intros st0 Hinv; simpl.
    - by intros [= <- <-].
    - destruct (reader_cb e st0) as [[c st1]|] eqn:Hcb; simpl; [|done].
      pose proof (reader_cb_nested_path _ _ _ _ Hcb Hinv) as Hinv1.
      case_decide; [by intros [= <- <-] | by apply IH]. }
  by apply Hgen.
Qed.

Lemma stack_is_path_from_root_witness :
  nested_path (stack {| stack := [[in_array 0]; []]; tempKey := "";
                        root := Some (data_array [data_array []]) |}) ∧
  (root {| stack := [[in_array 0]; []]; tempKey := "";
           root := Some (data_array [data_array []]) |} = None →
   stack {| stack := [[in_array 0]; []]; tempKey := "";
            root := Some (data_array [data_array []]) |} = []).
Proof.
  apply (stack_is_path_from_root [ev_start_array; ev_start_array] 1).
  reflexivity.
Defined.

(** ** The walk on a generator that refuses a call *)

Section unfolding.
Context `{YajlGen G}.

Local Abbreviation L := (list (gen_call * yajl_gen_status)).

Lemma generate_json_map (gen : G) m :
  generate_json gen (data_map m) =
  and_then (yajl_gen_call yajl_gen_map_open gen) (λ gen,
  and_then
    (map_fold (λ key item r,
       and_then r (λ gen,
       and_then (yajl_gen_call (yajl_gen_string key) gen) (λ gen,
       generate_json gen item)))
       (yajl_gen_status_ok, gen) m)
    (yajl_gen_call yajl_gen_map_close)).
Proof. done. Qed.

Lemma generate_json_array (gen : G) a :
  generate_json gen (data_array a) =
  and_then (yajl_gen_call yajl_gen_array_open gen) (λ gen,
  and_then
    (foldl (λ r item, and_then r (λ gen, generate_json gen item))
       (yajl_gen_status_ok, gen) a)
    (yajl_gen_call yajl_gen_array_close)).
Proof. done. Qed.
End unfolding.

Section logged.
Context `{YajlGen G}.

Local Abbreviation L := (list (gen_call * yajl_gen_status)).

Lemma made_call c (s : G * L) : made s.2 (yajl_gen_call c s) [c].
Proof.
  unfold made, yajl_gen_call at 1 3 4 5, logging_gen. simpl.
  destruct (decide ((yajl_gen_call c s.1).1 = yajl_gen_status_ok)) as [Hok|Hno].
  - left. by rewrite Hok.
  - right. split; [done|]. by exists [], c, [].
Qed.

Lemma made_and_then (r : yajl_gen_status * (G * L)) rest log calls1 calls2 :
  made log r calls1 → (∀ s, made s.2 (rest s) calls2) →
  made log (and_then r rest) (calls1 ++ calls2).
Proof.
  intros [[Hok Hlog]|(Hno & done & c & more & -> & Hlog)] Hrest;
    unfold and_then.
  - rewrite decide_True by done.
    destruct (Hrest r.2) as [[Hok' Hlog']|(Hno' & done & c & more & -> & Hlog')].
    + left. split; [done|]. rewrite Hlog', Hlog. unfold accepted.
      by rewrite fmap_app, app_assoc.
    + right. split; [done|]. exists (calls1 ++ done), c, more.
      split; [by rewrite app_assoc|]. rewrite Hlog', Hlog. unfold accepted.
      by rewrite fmap_app, !app_assoc.
  - rewrite decide_False by done. right. split; [done|].
    exists done, c, (more ++ calls2). split; [|done].
    by rewrite <- app_assoc.
Qed.

Lemma made_nothing (s : G * L) : made s.2 (yajl_gen_status_ok, s) [].
Proof. left. split; [done|]. simpl. by rewrite app_nil_r. Qed.

Lemma generate_json_made v :
  ∀ s : G * L, made s.2 (generate_json s v) (rendering v).
Proof.
  induction v as [| b | i | r | s0 | m IH | a IH] using json_data_nested_ind;
    intros s; try apply made_call.
  - rewrite rendering_map, generate_json_map.
    apply (made_and_then _ _ _ [yajl_gen_map_open]); [apply made_call|].
    intros s1. apply made_and_then; [|intros; apply made_call].
    rewrite map_fold_foldr. apply map_Forall_to_list in IH.
    induction IH as [|[key item] l Hitem _ IHl]; [apply made_nothing|].
    simpl. apply made_and_then; [exact IHl|]. intros s2.
    apply (made_and_then _ _ _ [yajl_gen_string key]); [apply made_call|].
    apply Hitem.
  - rewrite rendering_array, generate_json_array.
    apply (made_and_then _ _ _ [yajl_gen_array_open]); [apply made_call|].
    intros s1. apply made_and_then; [|intros; apply made_call].
    assert (∀ acc log calls0, made log acc calls0 →
      made log
        (foldl (λ r item, and_then r (λ gen, generate_json gen item)) acc a)
        (calls0 ++ concat (rendering <$> a))) as Hfold.
    { induction IH as [|item l Hitem _ IHl]; intros acc log calls0 Hacc.
      { by rewrite app_nil_r. }
      csimpl. rewrite app_assoc. apply IHl. by apply made_and_then. }
    apply (Hfold _ _ []), made_nothing.
Qed.

(** The record changes nothing for the generator observed. *)
Lemma and_then_logged (r : yajl_gen_status * (G * L)) r0 rest rest0 :
  (r.1, r.2.1) = r0 →
  (∀ s, ((rest s).1, (rest s).2.1) = rest0 s.1) →
  ((and_then r rest).1, (and_then r rest).2.1) = and_then r0 rest0.
Proof.
  intros <- Hrest. unfold and_then. simpl.
  case_decide; [apply Hrest | done].
Qed.

Lemma generate_json_logged v :
  ∀ s : G * L,
    ((generate_json s v).1, (generate_json s v).2.1) = generate_json s.1 v.
Proof.
  assert (∀ c (s : G * L),
    ((yajl_gen_call c s).1, (yajl_gen_call c s).2.1) = yajl_gen_call c s.1)
    as Hcall.
  { intros c s. unfold yajl_gen_call at 1 2, logging_gen. simpl.
    by destruct (yajl_gen_call c s.1). }
  induction v as [| b | i | r | s0 | m IH | a IH] using json_data_nested_ind;
    intros s; try apply Hcall.
  - rewrite !generate_json_map.
    apply and_then_logged; [apply Hcall|]. intros s1.
    apply and_then_logged; [|intros; apply Hcall].
    rewrite !map_fold_foldr. apply map_Forall_to_list in IH.
    induction IH as [|[key item] l Hitem _ IHl]; [done|].
    simpl. apply and_then_logged; [exact IHl|]. intros s2.
    apply and_then_logged; [apply Hcall|]. apply Hitem.
  - rewrite !generate_json_array.
    apply and_then_logged; [apply Hcall|]. intros s1.
    apply and_then_logged; [|intros; apply Hcall].
    assert (∀ (acc : yajl_gen_status * (G * L)) acc0,
      (acc.1, acc.2.1) = acc0 →
      let r := foldl (λ r item, and_then r (λ gen, generate_json gen item))
                 acc a in
      (r.1, r.2.1) =
      foldl (λ r item, and_then r (λ gen, generate_json gen item)) acc0 a)
      as Hfold.
    { induction IH as [|item l Hitem _ IHl]; intros acc acc0 Hacc; [done|].
      simpl. apply IHl. by apply and_then_logged. }
    by apply Hfold.
Qed.
End logged.

(** X11.  Whatever the generator, [generate_json] makes the calls of
    [rendering] one after the other for as long as they are accepted.  The
    first call that is refused is the last one made, and its status is
    returned; when none is refused all the calls are made and the status
    is ok.  Here the generator is observed through [logging_gen], which
    leaves its behaviour as it is. *)
Theorem walk_stops_at_first_refusal `{YajlGen G} v (gen : G) log :
  made log (generate_json (gen, log) v) (rendering v) ∧
  ((generate_json (gen, log) v).1, (generate_json (gen, log) v).2.1) =
    generate_json gen v.
Proof.
  split.
  - apply (generate_json_made v (gen, log)).
  - apply (generate_json_logged v (gen, log)).
Qed.

(** ** The depth of the walk *)

Section depth.
Context `{YajlGen G}.

(** [reaches r k]: the piece of the walk that gave [r] had at most [k]
    activations live, and exactly [k] at some moment if no call was
    refused. *)
#[warnings="-inconsistent-scopes"]
Local Abbreviation reaches r k :=
  (le r.2 k ∧ (r.1.1 = yajl_gen_status_ok → r.2 = k)).

Lemma call_frames_reaches frames c (gen : G) :
  reaches (call_frames frames c gen) frames.
Proof. done. Qed.

Lemma and_then_frames_reaches (r : yajl_gen_status * G * nat) rest k1 k2 p :
  reaches r k1 → (∀ gen, reaches (rest gen) k2) → p = (k1 `max` k2)%nat →
  reaches (and_then_frames r rest) p.
Proof.
  intros [Hle1 Heq1] Hrest ->. unfold and_then_frames.
  case_decide as Hok; simpl.
  - destruct (Hrest r.1.2) as [Hle2 Heq2]. split; [lia|].
    intros Hok2. by rewrite Heq1, Heq2.
  - split; [lia|done].
Qed.

Lemma generate_json_frames_reaches d :
  ∀ frames (gen : G),
    reaches (generate_json_frames frames gen d) (frames + nesting d)%nat.
Proof.
  induction d as [| b | i | r | s | m IH | a IH] using json_data_nested_ind;
    intros frames gen; simpl;
    try (rewrite Nat.add_0_r; apply call_frames_reaches).
  - assert (Hfold : ∀ gen0,
      reaches
        (map_fold (λ key item r,
           and_then_frames r (λ gen1,
           and_then_frames (call_frames frames (yajl_gen_string key) gen1)
             (λ gen2, generate_json_frames (S frames) gen2 item)))
           (yajl_gen_status_ok, gen0, frames) m)
        (frames + map_fold (λ _ item n, S (nesting item) `max` n) O m)%nat).
    { intros gen0. rewrite !map_fold_foldr.
      apply map_Forall_to_list in IH.
      induction IH as [|[key item] l Hitem _ IHl]; simpl in *.
      { split; [lia | intros _; lia]. }
      eapply and_then_frames_reaches; [exact IHl | intros gen1 | ].
      - eapply and_then_frames_reaches;
          [apply call_frames_reaches | intros gen2; apply Hitem | done].
      - lia. }
    eapply and_then_frames_reaches;
      [apply call_frames_reaches | intros gen0 | ].
    + eapply and_then_frames_reaches;
        [apply Hfold | intros gen1; apply call_frames_reaches | done].
    + lia.
  - assert (Hfold : ∀ acc n,
      reaches acc n → (frames ≤ n)%nat →
      reaches
        (foldl (λ r item,
           and_then_frames r (λ gen1,
             generate_json_frames (S frames) gen1 item)) acc a)
        (n `max` (frames + foldr (λ item n, S (nesting item) `max` n) O a))%nat).
    { induction IH as [|item l Hitem _ IHl]; intros acc n Hacc Hn; simpl.
      { destruct Hacc as [Hle Heq]. split; [lia|]. intros Hok.
        rewrite (Heq Hok). lia. }
      destruct (IHl (and_then_frames acc (λ gen1,
                  generate_json_frames (S frames) gen1 item))
                  (n `max` (S frames + nesting item))%nat) as [Hle Heq].
      - eapply and_then_frames_reaches;
          [exact Hacc | intros gen1; apply Hitem | done].
      - lia.
      - split; [lia|]. intros Hok. rewrite (Heq Hok). lia. }
    eapply and_then_frames_reaches;
      [apply call_frames_reaches | intros gen0 | ].
    + eapply and_then_frames_reaches;
        [apply (Hfold _ frames); [split; [simpl; lia|done] | lia]
        | intros gen1; apply call_frames_reaches
        | done].
    + lia.
Qed.
End depth.

(** The walk of an array nested [n] levels deep, on the generator that
    accepts every call, is [n + 1] activations deep. *)
Lemma nested_array_frames n :
  (generate_json_frames 1 ([] : list gen_call) (nested_array n)).2 = S n.
Proof.
  destruct (generate_json_frames_accepted recording_gen_accepts
              (nested_array n) 1%nat []) as [_ ->].
  by rewrite nesting_nested_array.
Qed.




(** ** Reading the input *)

Section reading_proofs.
Variable new_capacity : nat → nat → nat.
Hypothesis new_capacity_fits : ∀ c n, (n ≤ new_capacity c n)%nat.

Lemma READ_BUFSIZE_pos : (0 < READ_BUFSIZE)%nat.
Proof. unfold READ_BUFSIZE. lia. Qed.

Lemma read_loop_reads_all fuel :
  ∀ f buf fullSize,
    (length (elems buf) ≤ capacity buf)%nat →
    (fullSize + READ_BUFSIZE ≤ length (elems buf))%nat →
    (length f < fuel * READ_BUFSIZE)%nat →
    ∃ buf',
      read_loop new_capacity fuel f buf fullSize =
        Some (Some (buf', (fullSize + length f)%nat)) ∧
      take (fullSize + length f) (elems buf') = take fullSize (elems buf) ++ f ∧
      (fullSize + length f + READ_BUFSIZE ≤ length (elems buf'))%nat.
Proof.
  pose proof READ_BUFSIZE_pos as Hpos.
  induction fuel as [|fuel IH]; intros f buf fullSize Hcap Hroom Hfuel;
    [lia|].
  cbn [read_loop fread].
  assert (length (take READ_BUFSIZE f) ≤ READ_BUFSIZE)%nat as Hchunk
    by (rewrite length_take; lia).
  unfold write_at. rewrite decide_True by lia.
  set (l := take fullSize (elems buf) ++ take READ_BUFSIZE f ++
            drop (fullSize + length (take READ_BUFSIZE f)) (elems buf)).
  assert (length l = length (elems buf)) as Hl.
  { unfold l. rewrite !length_app, !length_take, length_drop. lia. }
  assert (take (fullSize + length (take READ_BUFSIZE f)) l =
          take fullSize (elems buf) ++ take READ_BUFSIZE f) as Hfront.
  { unfold l. rewrite app_assoc. apply take_app_length'.
    rewrite length_app, !length_take. lia. }
  unfold resize. cbn [elems capacity].
  rewrite !(decide_False (P:=(capacity buf + READ_BUFSIZE ≤ length l)%nat))
    by lia.
  rewrite !(decide_False (P:=(capacity buf + READ_BUFSIZE ≤ capacity buf)%nat))
    by lia.
  set (buf1 := {| elems := l ++ replicate _ Byte.x00; capacity := _ |}).
  assert (length (elems buf1) = capacity buf + READ_BUFSIZE)%nat as Hlen1.
  { unfold buf1. cbn [elems]. rewrite length_app, length_replicate. lia. }
  assert (take (fullSize + length (take READ_BUFSIZE f)) (elems buf1) =
          take fullSize (elems buf) ++ take READ_BUFSIZE f) as Hfront1.
  { unfold buf1. cbn [elems]. rewrite take_app_le by lia. exact Hfront. }
  case_decide as Hfull.
  - assert (READ_BUFSIZE ≤ length f)%nat as Hf
      by (rewrite length_take in Hfull; lia).
    destruct (IH (drop READ_BUFSIZE f) buf1
                (fullSize + length (take READ_BUFSIZE f))%nat)
      as (buf' & Hloop & Htake & Hroom').
    { unfold buf1 at 2. cbn [capacity]. rewrite Hlen1.
      apply new_capacity_fits. }
    { lia. }
    { rewrite length_drop. lia. }
    exists buf'. rewrite length_drop in *. rewrite Hfull in *.
    replace (fullSize + READ_BUFSIZE + (length f - READ_BUFSIZE))%nat
      with (fullSize + length f)%nat in * by lia.
    split; [exact Hloop|]. split; [|exact Hroom'].
    rewrite Htake, Hfront1, <- app_assoc. by rewrite take_drop.
  - assert (length f < READ_BUFSIZE)%nat as Hf
      by (rewrite length_take in Hfull; lia).
    rewrite (take_ge f READ_BUFSIZE) in * by lia.
    exists buf1. split_and!; [done..|lia].
Qed.

End reading_proofs.

